(** * EDM completion (pylocus, [edm_completion.py]): a shallow embedding

    The module completes a partially observed Euclidean distance matrix
    with three alternative routines: [optspace], [rank_alternation] and
    [semidefinite_relaxation].

    Modelling choices.
    - A numpy [float64] entry is a [scalar]: an exact rational or [NaN].
      Arithmetic on scalars is exact: it does not round and it does not
      overflow.  [NaN] is kept because [np.mean] of an empty selection
      yields it and every comparison with it is false.  The theorems on
      the three routines are therefore restricted to what does not depend
      on rounding: which entries are copied, compared, cleared or
      combined, in which order, and with which exceptions.  Where one
      rests on a cancellation ([0.5 * (x + x)] is [x], [(x + x) - 2 * x]
      is zero) it carries the hypothesis [in_range] that the sum [x + x]
      is within the range of float64; there float64 computes the sum, the
      product and the difference without rounding, and beyond it the sum
      is an infinity.  The module [f64] has the arithmetic of lines 56 to
      61 and of line 74 on IEEE 754 binary64 numbers (Rocq's primitive
      floats); the two cancellations are proved on them for every number
      whose double is finite, from the Standard Library's specification
      of binary64, and the inputs on which exact arithmetic and float64
      part are evaluated.
    - A 2-D numpy array is a list of rows, so an array without rows has no
      columns either.  Arrays live in a [heap] and are passed by reference
      ([loc]), so that in-place index assignment and aliasing are visible.
    - The routines run in a state-and-exception monad [M]; an exception
      keeps the state reached when it was raised.  The state also keeps
      the [trace] of the calls to the external collaborators and of the
      prints.
    - The external collaborators ([low_rank_approximation], [opt_space],
      the cvxpy solver) and the numpy and cvxpy primitives with irrational
      results ([np.sqrt], [np.linalg.norm], cvxpy's [norm]) are parameters
      of the development.
    - Index assignment and broadcasting raise where numpy (1.13 or later)
      raises: [IndexError] for a boolean mask of another shape or an index
      out of range, [ValueError] for shapes that do not broadcast.  cvxpy
      raises [ValueError] for operands of different dimensions.  The
      diagnostics of [print_out] raise where numpy does: [np.linalg.eigvals]
      on an array with a NaN, [np.trace] on the scalar value of a 1 by 1
      variable. *)

From Stdlib Require Import QArith Qcanon.
From Stdlib Require Floats.
From stdpp Require Import base option list numbers strings gmap.

Local Open Scope Qc_scope.

(** ** Scalars *)

Inductive scalar : Type :=
  | Num (q : Qc)
  | NaN.

Global Instance scalar_eq_dec : EqDecision scalar.
Proof. solve_decision. Defined.

Definition half : Qc := Q2Qc (1 # 2).
Definition two : Qc := 1 + 1.

Definition sadd (a b : scalar) : scalar :=
  match a, b with Num x, Num y => Num (x + y) | _, _ => NaN end.
Definition ssub (a b : scalar) : scalar :=
  match a, b with Num x, Num y => Num (x - y) | _, _ => NaN end.
Definition smul (a b : scalar) : scalar :=
  match a, b with Num x, Num y => Num (x * y) | _, _ => NaN end.

(** Division.  [0 / 0] is [NaN], as in [np.mean] of an empty selection.  A
    non-zero numerator over zero would be an infinity, which is not among
    the scalars and is given as [NaN] too; the other divisors of the
    module, [sqrt(n)] and [n + sqrt(n)], are positive. *)
Definition sdiv (a b : scalar) : scalar :=
  match a, b with
  | Num x, Num y => if decide (y = 0) then NaN else Num (x / y)
  | _, _ => NaN
  end.

(** The three comparisons of the source: [> 0], [< 0] and [== 0]. *)
Definition sgt0 (a : scalar) : bool :=
  match a with Num x => bool_decide (0 < x) | NaN => false end.
Definition slt0 (a : scalar) : bool :=
  match a with Num x => bool_decide (x < 0) | NaN => false end.
Definition seq0 (a : scalar) : bool :=
  match a with Num x => bool_decide (x = 0) | NaN => false end.

Definition zero : scalar := Num 0.
Definition one : scalar := Num 1.

Definition ssum (l : list scalar) : scalar := foldr sadd zero l.

Definition Qc_of_nat (n : nat) : Qc := Qc_of_Z (Z.of_nat n).

(** [np.mean] of a 1-D selection. *)
Definition np_mean (l : list scalar) : scalar :=
  sdiv (ssum l) (Num (Qc_of_nat (length l))).

(** The largest finite float64, and the scalars within the range of
    float64.  A sum of two float64 numbers that is in the range is not an
    infinity; the sum [x + x] and the product [2 * x] of a float64 number
    are then exact. *)
Definition DBL_MAX : Qc := Qc_of_Z (2 ^ 1024 - 2 ^ 971).
Definition in_range (a : scalar) : Prop :=
  match a with
  | Num x => - DBL_MAX ≤ x ∧ x ≤ DBL_MAX
  | NaN => True
  end.

Local Close Scope Qc_scope.

(** ** Matrices *)

Abbreviation matrix := (list (list scalar)).

Definition nrows (m : matrix) : nat := length m.
Definition ncols (m : matrix) : nat :=
  match m with [] => 0%nat | r :: _ => length r end.

(** [is_shape n k m]: [m] is a rectangular [n] by [k] array. *)
Definition is_shape (n k : nat) (m : matrix) : Prop :=
  length m = n ∧ Forall (λ r, length r = k) m.

Definition get (m : matrix) (i j : nat) : scalar :=
  default NaN (m !! i ≫= λ r, r !! j).

(** The array whose [(i, j)] entry is [f i j]. *)
Definition mk (n k : nat) (f : nat → nat → scalar) : matrix :=
  (λ i, (λ j, f i j) <$> seq 0 k) <$> seq 0 n.

Definition same_shape (a b : matrix) : bool :=
  bool_decide (nrows a = nrows b) && bool_decide (ncols a = ncols b).

Definition transpose (m : matrix) : matrix :=
  mk (ncols m) (nrows m) (λ i j, get m j i).

(** [a[p(a)] = v]: every entry that satisfies [p] becomes [v]. *)
Definition fill_where (p : scalar → bool) (v : scalar) (m : matrix) : matrix :=
  (λ r : list scalar, (λ x, if p x then v else x) <$> r) <$> m.

(** [a[a > 0]]: the selected entries, in row-major order. *)
Definition select_gt0 (m : matrix) : list scalar :=
  filter (λ x, sgt0 x = true) (concat m).

(** [c[e > 0] = e[e > 0]] on arrays of one shape. *)
Definition impose_known (c e : matrix) : matrix :=
  mk (nrows c) (ncols c)
     (λ i j, if sgt0 (get e i j) then get e i j else get c i j).

(** [a[range(N), range(N)] = 0.0], where every index is in range. *)
Definition zero_diag (N : nat) (m : matrix) : matrix :=
  mk (nrows m) (ncols m)
     (λ i j, if bool_decide (i = j ∧ i < N)%nat then zero else get m i j).

(** Matrix product ([dot], and [*] on [np.matrix] operands). *)
Definition matmul (a b : matrix) : matrix :=
  mk (nrows a) (ncols b)
     (λ i j, ssum ((λ k, smul (get a i k) (get b k j)) <$> seq 0 (ncols a))).

Definition madd (a b : matrix) : matrix :=
  mk (nrows a) (ncols a) (λ i j, sadd (get a i j) (get b i j)).
Definition msub (a b : matrix) : matrix :=
  mk (nrows a) (ncols a) (λ i j, ssub (get a i j) (get b i j)).
Definition mscale (c : scalar) (a : matrix) : matrix :=
  mk (nrows a) (ncols a) (λ i j, smul c (get a i j)).

(** numpy broadcasting of a binary elementwise operation on 2-D arrays: a
    dimension of two operands must agree or be 1 in one of them. *)
Definition bdim (x y : nat) : option nat :=
  if decide (x = y) then Some x
  else if decide (x = 1%nat) then Some y
  else if decide (y = 1%nat) then Some x
  else None.

Definition broadcast2 (f : scalar → scalar → scalar) (a b : matrix)
  : option matrix :=
  n ← bdim (nrows a) (nrows b);
  k ← bdim (ncols a) (ncols b);
  Some (mk n k (λ i j,
    f (get a (if decide (nrows a = 1%nat) then 0%nat else i)
             (if decide (ncols a = 1%nat) then 0%nat else j))
      (get b (if decide (nrows b = 1%nat) then 0%nat else i)
             (if decide (ncols b = 1%nat) then 0%nat else j)))).

Definition np_add : matrix → matrix → option matrix := broadcast2 sadd.
Definition np_sub : matrix → matrix → option matrix := broadcast2 ssub.

(** [a.dot(b)]: the inner dimensions must agree. *)
Definition np_dot (a b : matrix) : option matrix :=
  if decide (ncols a = nrows b) then Some (matmul a b) else None.

(** Some entry of the array is NaN. *)
Definition has_nan (m : matrix) : bool :=
  bool_decide (Exists (Exists (λ x, x = NaN)) m).

(** [np.diag] of a 2-D array, [np.outer] and [np.ones]. *)
Definition np_diag (m : matrix) : list scalar :=
  (λ i, get m i i) <$> seq 0 (nrows m `min` ncols m).
Definition np_outer (u v : list scalar) : matrix :=
  mk (length u) (length v)
     (λ i j, smul (default NaN (u !! i)) (default NaN (v !! j))).
Definition np_ones (n : nat) : list scalar := replicate n one.

(** ** cvxpy expressions

    The symbolic side of the module: what the overloaded operators build
    when one operand is a cvxpy variable. *)

Inductive expr : Type :=
  | Semidef (n : nat)
  | Const (m : matrix)
  | Mul (a b : expr)
  | Add (a b : expr)
  | Sub (a b : expr)
  | Scale (c : scalar) (a : expr)
  | Transp (a : expr)
  | Diag (a : expr)
  | Trace (a : expr)
  | Norm (a : expr)
  | MulElemwise (w : matrix) (a : expr).

Inductive objective : Type :=
  | Maximize (e : expr)
  | Minimize (e : expr).

(** cvxpy's [diag]: the diagonal of a matrix as a column vector, or the
    diagonal matrix of a column vector. *)
Definition cvx_diag (m : matrix) : matrix :=
  if decide (ncols m = 1%nat)
  then mk (nrows m) (nrows m)
          (λ i j, if decide (i = j) then get m i 0 else zero)
  else mk (nrows m) 1 (λ i _, get m i i).

Definition mtrace (m : matrix) : scalar :=
  ssum ((λ i, get m i i) <$> seq 0 (nrows m)).

Definition mul_elemwise (w a : matrix) : matrix :=
  mk (nrows a) (ncols a) (λ i j, smul (get w i j) (get a i j)).

(** ** Exceptions, heap and trace *)

Inductive exn : Type :=
  | IndexError
  | ValueError
  | UnboundLocalError (name : string)
  | ExternalError (msg : string).  (* raised inside a collaborator *)

Abbreviation loc := nat (only parsing).

Record solve_result : Type := SolveResult {
  total : scalar;
  status : string;
  H_value : option matrix
}.

Inductive event : Type :=
  | LowRankCall (a : matrix) (rank : nat)
  | OptSpaceCall (a : matrix) (rank niter : nat)
  | SolveCall (obj : objective) (options : gmap string string)
              (out : exn + solve_result)
  | Print (label : string).

Record state : Type := State {
  heap : list matrix;
  trace : list event
}.

Definition M (A : Type) : Type := state → (exn + A) * state.

Global Instance M_ret : MRet M := λ A a s, (inr a, s).
Global Instance M_bind : MBind M := λ A B k c s,
  match c s with
  | (inl e, s') => (inl e, s')
  | (inr a, s') => k a s'
  end.

Definition raise {A} (e : exn) : M A := λ s, (inl e, s).

Definition lift {A} (e : exn) (o : option A) : M A :=
  match o with Some a => mret a | None => raise e end.

Definition throw {A} (r : exn + A) : M A :=
  match r with inl e => raise e | inr a => mret a end.

(** A new array object. *)
Definition alloc (m : matrix) : M loc :=
  λ s, (inr (length (heap s)), State (heap s ++ [m]) (trace s)).

(** The current value of an array object. *)
Definition load (l : loc) : M matrix :=
  λ s, (inr (default [] (heap s !! l)), s).

(** In-place update of an array object. *)
Definition store (l : loc) (m : matrix) : M unit :=
  λ s, (inr (), State (<[l := m]> (heap s)) (trace s)).

Definition emit (e : event) : M unit :=
  λ s, (inr (), State (heap s) (trace s ++ [e])).

Definition print (print_out : bool) (label : string) : M unit :=
  if print_out then emit (Print label) else mret ().

(** ** The module *)

Section edm_completion.

(** The external collaborators.  Each returns a new array and leaves its
    arguments as they are; each may raise. *)
Variable low_rank_approximation : matrix → nat → exn + matrix.
Variable opt_space :
  matrix → nat → nat → scalar → bool → exn + (matrix * matrix * matrix).
Variable cvx_solve : objective → gmap string string → exn + solve_result.

(** The numpy and cvxpy primitives with irrational results. *)
Variable np_sqrt : scalar → scalar.
Variable np_linalg_norm : matrix → scalar.
Variable cvx_norm : matrix → scalar.

Definition call_low_rank (a : matrix) (rank : nat) : M matrix :=
  emit (LowRankCall a rank);;
  throw (low_rank_approximation a rank).

Definition call_opt_space (a : matrix) (rank niter : nat) (tol : scalar)
    (print_out : bool) : M (matrix * matrix * matrix) :=
  emit (OptSpaceCall a rank niter);;
  throw (opt_space a rank niter tol print_out).

Definition call_solve (obj : objective) (options : gmap string string)
  : M solve_result :=
  emit (SolveCall obj options (cvx_solve obj options));;
  throw (cvx_solve obj options).

(** [a[range(N), range(N)] = 0.0] on the array object [l]. *)
Definition set_diag_zero (N : nat) (l : loc) : M unit :=
  c ← load l;
  if decide (N ≤ nrows c ∧ N ≤ ncols c)%nat
  then store l (zero_diag N c)
  else raise IndexError.

(** *** optspace *)

Definition optspace (edm_missing : loc) (rank niter : nat) (tol : scalar)
    (print_out : bool) : M loc :=
  em ← load edm_missing;
  let N := nrows em in
  '(X, S_, Y) ← call_opt_space em rank niter tol print_out;
  SYt ← lift ValueError (np_dot S_ (transpose Y));
  XSYt ← lift ValueError (np_dot X SYt);
  edm_complete ← alloc XSYt;
  set_diag_zero N edm_complete;;
  mret edm_complete.

(** *** rank_alternation *)

(** Lines 59 to 61: impose the matrix structure.  The first two
    statements update the array in place, the third one binds the name
    to a new array. *)
Definition impose_structure (N : nat) (edm_complete : loc) : M loc :=
  set_diag_zero N edm_complete;;
  c ← load edm_complete;
  store edm_complete (fill_where slt0 zero c);;
  c ← load edm_complete;
  sum ← lift ValueError (np_add c (transpose c));
  alloc (mscale (Num half) sum).

(** One pass of the loop body. *)
Definition rank_step (edm_missing : loc) (rank N : nat)
    (edm_true : option loc) (st : loc * list scalar)
  : M (loc * list scalar) :=
  let '(edm_complete, errs) := st in
  (* impose matrix rank *)
  a ← load edm_complete;
  r ← call_low_rank a rank;
  edm_complete ← alloc r;
  (* impose known entries *)
  em ← load edm_missing;
  c ← load edm_complete;
  (if same_shape c em
   then store edm_complete (impose_known c em)
   else raise IndexError);;
  (* impose matrix structure *)
  edm_complete ← impose_structure N edm_complete;
  match edm_true with
  | None => mret (edm_complete, errs)
  | Some t =>
      c ← load edm_complete;
      tv ← load t;
      d ← lift ValueError (np_sub c tv);
      mret (edm_complete, errs ++ [np_linalg_norm d])
  end.

Fixpoint rank_loop (edm_missing : loc) (rank N : nat)
    (edm_true : option loc) (niter : nat) (st : loc * list scalar)
  : M (loc * list scalar) :=
  match niter with
  | O => mret st
  | S k =>
      st' ← rank_step edm_missing rank N edm_true st;
      rank_loop edm_missing rank N edm_true k st'
  end.

Definition rank_alternation (edm_missing : loc) (rank niter : nat)
    (print_out : bool) (edm_true : option loc) : M (loc * list scalar) :=
  em ← load edm_missing;
  let N := nrows em in
  edm_complete ← alloc em;
  c ← load edm_complete;
  store edm_complete (fill_where seq0 (np_mean (select_gt0 c)) c);;
  rank_loop edm_missing rank N edm_true niter (edm_complete, []).

(** *** semidefinite_relaxation *)

Definition kappa (gram : matrix) : matrix :=
  let n := length gram in
  let e := np_ones n in
  msub (madd (np_outer (np_diag gram) e) (np_outer e (np_diag gram)))
       (mscale (Num two) gram).

Definition kappa_cvx (gram : expr) (n : nat) : expr :=
  let e := mk n 1 (λ _ _, one) in
  Sub (Add (Mul (Diag gram) (Const (transpose e)))
           (Mul (Const e) (Transp (Diag gram))))
      (Scale (Num two) gram).

(** The value of an expression once the variable has the value [H]. *)
Fixpoint eval (H : matrix) (e : expr) : matrix :=
  match e with
  | Semidef _ => H
  | Const m => m
  | Mul a b => matmul (eval H a) (eval H b)
  | Add a b => madd (eval H a) (eval H b)
  | Sub a b => msub (eval H a) (eval H b)
  | Scale c a => mscale c (eval H a)
  | Transp a => transpose (eval H a)
  | Diag a => cvx_diag (eval H a)
  | Trace a => [[mtrace (eval H a)]]
  | Norm a => [[cvx_norm (eval H a)]]
  | MulElemwise w a => mul_elemwise w (eval H a)
  end.

(** [np.c_[-ones(n-1)/sqrt(n), eye(n-1) - ones([n-1,n-1])/(n+sqrt(n))].T] *)
Definition centering_basis (n : nat) : matrix :=
  let sn := np_sqrt (Num (Qc_of_nat n)) in
  transpose (mk (n - 1) n (λ i j,
    match j with
    | O => sdiv (Num (- 1)%Qc) sn
    | S j' => ssub (if decide (i = j') then one else zero)
                   (sdiv one (sadd (Num (Qc_of_nat n)) sn))
    end)).

(** Lines 84 to 87: the weights are a new 0/1 array, or the caller's array
    with the unobserved positions zeroed by index assignment. *)
Definition sdr_weights (edm_missing : loc) (W : option loc) : M loc :=
  em ← load edm_missing;
  match W with
  | None =>
      alloc (mk (nrows em) (ncols em)
                (λ i j, if sgt0 (get em i j) then one else zero))
  | Some w =>
      wv ← load w;
      (if same_shape wv em
       then store w (mk (nrows wv) (ncols wv)
               (λ i j, if seq0 (get em i j) then zero else get wv i j))
       else raise IndexError);;
      mret w
  end.

(** Lines 94 to 103: the objective; the name [obj] is bound on two of the
    three branches only, and read by [Problem(obj)].  On these two
    branches cvxpy builds [edm_optimize - edm_missing] and refuses, with a
    [ValueError], operands of different dimensions unless one of them is
    1 by 1; [edm_optimize] is [n] by [n], [n] being the number of rows of
    [edm_missing]. *)
Definition sdr_objective (method : string) (lamda : scalar) (n : nat)
    (V em wv : matrix) : exn + objective :=
  let H := Semidef (n - 1) in
  let G := Mul (Mul (Const V) H) (Const (transpose V)) in
  let edm_optimize := kappa_cvx G n in
  let fit :=
    Scale lamda (Norm (MulElemwise wv (Sub edm_optimize (Const em)))) in
  let checked (obj : objective) : exn + objective :=
    if decide (ncols em = n ∨ n = 1) then inr obj else inl ValueError in
  if decide (method = "maximize"%string)
  then checked (Maximize (Sub (Trace H) fit))
  else if decide (method = "minimize"%string)
  then checked (Minimize (Add (Trace H) fit))
  else inl (UnboundLocalError "obj"%string).

(** [V * H.value * V.T]: matrix products, the value of a cvxpy variable
    being an [np.matrix]. *)
Definition gram_best (V Hv : matrix) : matrix :=
  matmul (matmul V Hv) (transpose V).

(** Lines 110 to 116.  The diagnostic of line 113 calls
    [np.linalg.eigvals], which refuses an array with a NaN. *)
Definition sdr_result (edm_missing : loc) (V : matrix) (print_out : bool)
    (out : solve_result) : M loc :=
  match H_value out with
  | Some Hv =>
      let Gbest := gram_best V Hv in
      (if print_out && has_nan Gbest
       then raise (ExternalError "LinAlgError")
       else mret ());;
      print print_out "eigenvalues:"%string;;
      alloc (kappa Gbest)
  | None => mret edm_missing
  end.

Definition semidefinite_relaxation (edm_missing : loc) (lamda : scalar)
    (W : option loc) (print_out : bool) (kwargs : gmap string string)
  : M loc :=
  let method := default "maximize"%string (kwargs !! "method"%string) in
  let options :=
    delete "method"%string kwargs ∪ {[ "solver"%string := "CVXOPT"%string ]} in
  W ← sdr_weights edm_missing W;
  em ← load edm_missing;
  let n := nrows em in
  (* np.ones(n - 1) refuses a negative dimension *)
  (if decide (n = 0) then raise ValueError else mret ());;
  let V := centering_basis n in
  wv ← load W;
  obj ← throw (sdr_objective method lamda n V em wv);
  out ← call_solve obj options;
  print print_out "total cost:"%string;;
  print print_out "SDP status:"%string;;
  edm_complete ← sdr_result edm_missing V print_out out;
  (if print_out
   then match H_value out with
        | Some _ =>
            (* the value of a 1 by 1 variable is a scalar, which
               [np.trace] refuses *)
            (if decide (n - 1 = 1) then raise ValueError else mret ());;
            print true "trace of H:"%string
        | None => mret ()
        end;;
        print true "other cost:"%string
   else mret ());;
  mret edm_complete.

End edm_completion.

(** What lines 59 and 60 leave in the working array [c], and what line 61
    builds from it, on a square array. *)
Definition clipped (n : nat) (c : matrix) : matrix :=
  fill_where slt0 zero (zero_diag n c).
Definition averaged (n : nat) (c : matrix) : matrix :=
  mscale (Num half) (madd (clipped n c) (transpose (clipped n c))).

(** A scalar from an integer literal. *)
Definition q (z : Z) : scalar := Num (Qc_of_Z z).

(** The ground truth [edm_true], if one is given, is an [n] by [n] array. *)
Definition truth_fits (n : nat) (edm_true : option loc) (s : state) : Prop :=
  ∀ t, edm_true = Some t → ∃ tv, heap s !! t = Some tv ∧ is_shape n n tv.

(** ** float64

    The arithmetic of lines 56 to 61 and of line 74 on IEEE 754 binary64
    numbers, entry by entry on an [N] by [N] array: comparisons, sums and
    products are the machine's. *)
Module f64.
Import PrimFloat.

Definition get (m : list (list float)) (i j : nat) : float :=
  default nan (m !! i ≫= λ r, r !! j).

Definition mk (n k : nat) (f : nat → nat → float) : list (list float) :=
  (λ i, (λ j, f i j) <$> seq 0 k) <$> seq 0 n.

(** [x > 0] and [x == y]; the numbers whose double is finite; the numbers
    as opposed to NaN. *)
Definition observed (x : float) : bool := (0 <? x)%float.
Definition equal (x y : float) : bool := (x =? y)%float.
Definition in_range (x : float) : bool := negb (is_infinity (x + x)).
Definition is_number (x : float) : bool := negb (is_nan x).

(** An entry of [0.5 * (c + c.T)]. *)
Definition average (x y : float) : float := (0.5 * (x + y))%float.

(** Line 56: [c[e > 0] = e[e > 0]]. *)
Definition impose_known (N : nat) (c e : list (list float))
  : list (list float) :=
  mk N N (λ i j, if observed (get e i j) then get e i j else get c i j).

(** Lines 59 to 61: [c[range(N), range(N)] = 0.0], [c[c < 0] = 0.0] and
    [0.5 * (c + c.T)]. *)
Definition impose_structure (N : nat) (c : list (list float))
  : list (list float) :=
  let c1 := mk N N (λ i j, if decide (i = j) then 0%float else get c i j) in
  let c2 := mk N N (λ i j, if (get c1 i j <? 0)%float then 0%float
                           else get c1 i j) in
  mk N N (λ i j, average (get c2 i j) (get c2 j i)).

(** A zero diagonal, no negative entry, and equal to its transpose. *)
Definition valid (N : nat) (c : list (list float)) : bool :=
  forallb (λ i, forallb (λ j,
    (if decide (i = j) then (get c i j =? 0)%float else true)
    && negb (get c i j <? 0)%float
    && (get c i j =? get c j i)%float) (seq 0 N)) (seq 0 N).

(** Line 74: [np.outer(np.diag(gram), e) + np.outer(e, np.diag(gram).T)
    - 2 * gram]. *)
Definition kappa (N : nat) (g : list (list float)) : list (list float) :=
  mk N N (λ i j, (get g i i * 1 + 1 * get g j j - 2 * get g i j)%float).

(** Two points at a squared distance of 2^1023, a finite float64 whose
    double is not; and a Gram matrix with that number on its diagonal.
    [half_max] is the largest float64 whose double is finite, [tiny] the
    smallest positive float64. *)
Definition huge : float := 0x1p+1023%float.
Definition half_max : float := 0x1.fffffffffffffp+1022%float.
Definition tiny : float := 0x1p-1074%float.
Definition huge_edm : list (list float) := [[0; huge]; [huge; 0]]%float.
Definition huge_gram : list (list float) := [[huge; 0]; [0; huge]]%float.

(** Two points at squared distance 4, what a low-rank routine may have
    answered for them, and a Gram matrix. *)
Definition sym_edm : list (list float) := [[0; 4]; [4; 0]]%float.
Definition guess : list (list float) := [[0.5; 3.75]; [4.25; -0.125]]%float.
Definition gram2 : list (list float) := [[2; -1]; [-1; 5]]%float.

End f64.

(** One step of symbolic execution in [M]. *)
Ltac mrun :=
  unfold mbind, mret, M_bind, M_ret, throw, raise, lift, alloc, load, store,
    emit, print;
  cbn [heap trace fst snd default from_option id].

(** ** Concrete collaborators and inputs for the examples *)

(** A low-rank routine that returns its argument: the best approximation
    of rank at most [r] of an array whose rank is at most [r]. *)
Definition lra_exact : matrix → nat → exn + matrix := λ a _, inr a.
Definition norm_unused : matrix → scalar := λ _, zero.

(** A low-rank routine that, like an SVD, gives up on an array with a NaN. *)
Definition lra_strict : matrix → nat → exn + matrix :=
  λ a _, if has_nan a then inl (ExternalError "LinAlgError") else inr a.

(** A solver that finds the problem infeasible, and one that answers with
    the value [Hv]. *)
Definition solve_infeasible
  : objective → gmap string string → exn + solve_result :=
  λ _ _, inr (SolveResult NaN "infeasible" None).
Definition solve_optimal (Hv : matrix)
  : objective → gmap string string → exn + solve_result :=
  λ _ _, inr (SolveResult zero "optimal" (Some Hv)).

(** A factorization routine that answers with the factors [X], [S_], [Y]. *)
Definition factors (X S_ Y : matrix)
  : matrix → nat → nat → scalar → bool → exn + (matrix * matrix * matrix) :=
  λ _ _ _ _ _, inr (X, S_, Y).

(** The square root, on the squares 1, 4 and 9. *)
Definition sqrt_table (x : scalar) : scalar :=
  if decide (x = q 1) then q 1
  else if decide (x = q 4) then q 2
  else if decide (x = q 9) then q 3
  else NaN.

(** The same, with the float64 that [np.sqrt] gives for 2. *)
Definition sqrt_two : scalar :=
  Num (Q2Qc (6369051672525773 # 4503599627370496)).
Definition sqrt_table2 (x : scalar) : scalar :=
  if decide (x = q 2) then sqrt_two else sqrt_table x.

Definition eye2 : matrix := [[q 1; q 0]; [q 0; q 1]].
Definition eye3 : matrix := [[q 1; q 0; q 0]; [q 0; q 1; q 0]; [q 0; q 0; q 1]].
Definition zeros2 : matrix := [[q 0; q 0]; [q 0; q 0]].
Definition ones2 : matrix := [[q 1; q 1]; [q 1; q 1]].
Definition nans2 : matrix := [[NaN; NaN]; [NaN; NaN]].

(** Two points at squared distance 4. *)
Definition sym_edm : matrix := [[q 0; q 4]; [q 4; q 0]].

(** The same with a positive diagonal, and with two different
    measurements of the one distance. *)
Definition diag_edm : matrix := [[q 1; q 4]; [q 4; q 1]].
Definition unbalanced_edm : matrix := [[q 0; q 4]; [q 2; q 0]].

(** A 1 by 2 array, and a 2 by 3 array. *)
Definition row_edm : matrix := [[q 0; q 4]].
Definition wide_edm : matrix := [[q 0; q 4; q 1]; [q 4; q 0; q 9]].

(** The observed entries 4 and 2 face each other across the diagonal; the
    mean-filled array has two equal rows, so its rank is 2 and the
    projection on rank 2 is exact. *)
Definition asym_edm : matrix :=
  [[q 0; q 4; q 0]; [q 2; q 0; q 2]; [q 0; q 4; q 0]].

(** Four points on a line at 0, 1, 2 and 4; the distance between the first
    and the last is not observed. *)
Definition line_edm : matrix :=
  [[q 0; q 1; q 4; q 0];
   [q 1; q 0; q 1; q 9];
   [q 4; q 1; q 0; q 4];
   [q 0; q 9; q 4; q 0]].

Definition gram3 : matrix :=
  [[q 2; q (-1); q 0]; [q (-1); q 5; q 1]; [q 0; q 1; q 3]].

(** An array with negative entries where no distance was observed. *)
Definition negative_edm : matrix :=
  [[q 0; q 4; q (-3)]; [q 4; q 0; q (-1)]; [q (-3); q (-1); q 0]].

(** The number of errors one pass of rank alternation records. *)
Definition tracked (edm_true : option nat) : nat :=
  if edm_true is Some _ then 1 else 0.

(** A solver that fails with an exception of its own. *)
Definition solve_broken
  : objective → gmap string string → exn + solve_result :=
  λ _ _, inl (ExternalError "SolverError").

(** Keyword arguments that choose the mode and the backend and add an
    option. *)
Definition some_kwargs : gmap string string :=
  {[ "method"%string := "minimize"%string;
     "solver"%string := "SCS"%string;
     "verbose"%string := "True"%string ]}.

(** A 1 by 1 array: as all three factors it gives a 1 by 1 product. *)
Definition one1 : matrix := [[q 1]].

(** The value line 87 leaves in the weights [wv] for the input [em]. *)
Definition mask_unobserved (wv em : matrix) : matrix :=
  mk (nrows wv) (ncols wv)
     (λ i j, if seq0 (get em i j) then zero else get wv i j).

(** Weights that trust the measurement (0, 1) three times as much. *)
Definition weights2 : matrix := [[q 5; q 3]; [q 1; q 7]].

(** ** Arrays: shapes and entries *)

Lemma mk_shape n k f : is_shape n k (mk n k f).
Proof.
  split.
  - unfold mk. by rewrite length_fmap, length_seq.
  - unfold mk. apply Forall_fmap, Forall_forall. intros i _. simpl.
    by rewrite length_fmap, length_seq.
Qed.

Lemma get_mk n k f i j : i < n → j < k → get (mk n k f) i j = f i j.
Proof.
  intros Hi Hj. unfold get, mk.
  rewrite list_lookup_fmap, lookup_seq_lt by done. simpl.
  by rewrite list_lookup_fmap, lookup_seq_lt by done.
Qed.

Lemma shape_nrows n k m : is_shape n k m → nrows m = n.
Proof. by intros [? _]. Qed.

Lemma shape_ncols n k m : is_shape n k m → 0 < n → ncols m = k.
Proof.
  intros [Hn Hk] Hpos. destruct m as [|r m]; simpl in *; [lia|].
  by inversion Hk.
Qed.

Lemma shape_row n k (m : matrix) i r :
  is_shape n k m → m !! i = Some r → length r = k.
Proof.
  intros [_ Hk] Hr. rewrite Forall_lookup in Hk. by apply (Hk i).
Qed.

(** Two arrays of one shape with the same entries are the same array. *)
Lemma matrix_ext n k (a b : matrix) :
  is_shape n k a → is_shape n k b →
  (∀ i j, i < n → j < k → get a i j = get b i j) → a = b.
Proof.
  intros Ha Hb Hget. apply list_eq_same_length with n;
    [apply Hb | apply Ha |].
  intros i ra rb Hi Hra Hrb.
  apply list_eq_same_length with k;
    [exact (shape_row _ _ _ _ _ Hb Hrb) | exact (shape_row _ _ _ _ _ Ha Hra) |].
  intros j x y Hj Hx Hy.
  specialize (Hget i j Hi Hj). unfold get in Hget.
  rewrite Hra, Hrb in Hget. simpl in Hget. rewrite Hx, Hy in Hget.
  done.
Qed.

Lemma get_in_range n k (m : matrix) i j :
  is_shape n k m → i < n → j < k →
  ∃ r, m !! i = Some r ∧ r !! j = Some (get m i j).
Proof.
  intros Hm Hi Hj.
  destruct (lookup_lt_is_Some_2 m i) as [r Hr]; [by rewrite (proj1 Hm)|].
  destruct (lookup_lt_is_Some_2 r j) as [x Hx];
    [by rewrite (shape_row _ _ _ _ _ Hm Hr)|].
  exists r. split; [done|]. unfold get. rewrite Hr. simpl. by rewrite Hx.
Qed.

Lemma fill_where_shape p v n k m :
  is_shape n k m → is_shape n k (fill_where p v m).
Proof.
  intros [Hn Hk]. split; unfold fill_where.
  - by rewrite length_fmap.
  - apply Forall_fmap. eapply Forall_impl; [done|].
    intros r Hr. simpl. by rewrite length_fmap.
Qed.

Lemma get_fill_where p v n k m i j :
  is_shape n k m → i < n → j < k →
  get (fill_where p v m) i j = if p (get m i j) then v else get m i j.
Proof.
  intros Hm Hi Hj.
  destruct (get_in_range _ _ _ _ _ Hm Hi Hj) as (r & Hr & Hx).
  unfold get at 1, fill_where. rewrite list_lookup_fmap, Hr. simpl.
  by rewrite list_lookup_fmap, Hx.
Qed.

Lemma transpose_shape n k m :
  is_shape n k m → 0 < n → is_shape k n (transpose m).
Proof.
  intros Hm Hn. unfold transpose.
  rewrite (shape_nrows _ _ _ Hm), (shape_ncols _ _ _ Hm Hn). apply mk_shape.
Qed.

Lemma get_transpose n k m i j :
  is_shape n k m → i < k → j < n → get (transpose m) i j = get m j i.
Proof.
  intros Hm Hi Hj. unfold transpose.
  rewrite (shape_nrows _ _ _ Hm), (shape_ncols _ _ _ Hm) by lia.
  by rewrite get_mk.
Qed.

Lemma shape_rect n k m : is_shape n k m → is_shape (nrows m) (ncols m) m.
Proof.
  intros Hm. destruct (decide (n = 0)) as [->|Hn].
  - destruct Hm as [Hl _]. apply nil_length_inv in Hl. subst m.
    split; [done | constructor].
  - by rewrite (shape_nrows _ _ _ Hm), (shape_ncols _ _ _ Hm) by lia.
Qed.

Lemma shape_dims n k m :
  is_shape n k m → nrows m = n ∧ (0 < n → ncols m = k) ∧ (n = 0 → ncols m = 0).
Proof.
  intros Hm. split; [by destruct Hm|]. split.
  - by apply shape_ncols.
  - intros ->. destruct Hm as [Hl _]. by apply nil_length_inv in Hl; subst m.
Qed.

Lemma shape_zero k m : is_shape 0 k m → m = [].
Proof. intros [Hl _]. by apply nil_length_inv. Qed.

(** An operation defined through [mk] on the dimensions of its argument
    keeps the shape of that argument. *)
Lemma mk_dims_shape n k m f :
  is_shape n k m → is_shape n k (mk (nrows m) (ncols m) f).
Proof.
  intros Hm. destruct (decide (n = 0)) as [->|Hn].
  - rewrite (shape_zero _ _ Hm). split; [done | constructor].
  - rewrite (shape_nrows _ _ _ Hm), (shape_ncols _ _ _ Hm) by lia.
    apply mk_shape.
Qed.

Lemma get_mk_dims n k m f i j :
  is_shape n k m → i < n → j < k →
  get (mk (nrows m) (ncols m) f) i j = f i j.
Proof.
  intros Hm Hi Hj.
  rewrite (shape_nrows _ _ _ Hm), (shape_ncols _ _ _ Hm) by lia.
  by apply get_mk.
Qed.

Lemma bdim_same x : bdim x x = Some x.
Proof. unfold bdim. by rewrite decide_True. Qed.

Lemma broadcast2_same_shape f n k a b :
  is_shape n k a → is_shape n k b →
  broadcast2 f a b = Some (mk (nrows a) (ncols a) (λ i j, f (get a i j) (get b i j))).
Proof.
  intros Ha Hb. unfold broadcast2.
  destruct (shape_dims _ _ _ Ha) as (Ha1 & Ha2 & Ha3).
  destruct (shape_dims _ _ _ Hb) as (Hb1 & Hb2 & Hb3).
  assert (ncols a = ncols b) as Hc.
  { destruct (decide (n = 0)); [rewrite Ha3, Hb3 by done | rewrite Ha2, Hb2 by lia]; done. }
  rewrite Ha1, Hb1, <- Hc, !bdim_same. simpl. f_equal.
  apply (matrix_ext n (ncols a)); [apply mk_shape | apply mk_shape |].
  intros i j Hi Hj. rewrite !get_mk by done.
  repeat case_decide; f_equal; f_equal; lia.
Qed.

(** ** Scalar arithmetic *)

Lemma half_double (x : Qc) : (half * (x + x) = x)%Qc.
Proof.
  replace (x + x)%Qc with ((1 + 1) * x)%Qc by ring.
  rewrite Qcmult_assoc.
  replace (half * (1 + 1))%Qc with 1%Qc; [ring|].
  apply Qc_is_canon. reflexivity.
Qed.

Lemma smul_half_double a : smul (Num half) (sadd a a) = a.
Proof. destruct a as [x|]; simpl; [|done]. by rewrite half_double. Qed.

Lemma gram_diag_cancel (x : Qc) : (x * 1 + 1 * x - two * x = 0)%Qc.
Proof. unfold two. ring. Qed.

Lemma sgt0_Num a : sgt0 a = true ↔ ∃ x, a = Num x ∧ (0 < x)%Qc.
Proof.
  destruct a as [x|]; simpl.
  - rewrite bool_decide_eq_true. split; [eauto|]. by intros (? & [= <-] & ?).
  - split; [done|]. by intros (? & ? & _).
Qed.

Lemma sgt0_not_slt0 a : sgt0 a = true → slt0 a = false.
Proof.
  intros (x & -> & Hx)%sgt0_Num. simpl. apply bool_decide_eq_false.
  intros Hneg. by apply (Qclt_not_le _ _ Hneg), Qclt_le_weak.
Qed.

Section run.

Context {A B : Type}.

Lemma run_bind (c : M A) (k : A → M B) s :
  (c ≫= k) s =
  match c s with (inl e, s') => (inl e, s') | (inr a, s') => k a s' end.
Proof. done. Qed.

Lemma run_ret (a : A) s : mret (M := M) a s = (inr a, s).
Proof. done. Qed.

End run.

Lemma lookup_alloc (h : list matrix) m : (h ++ [m]) !! length h = Some m.
Proof. by apply list_lookup_middle. Qed.

Lemma insert_alloc (h : list matrix) m m' :
  <[length h := m']> (h ++ [m]) = h ++ [m'].
Proof. by rewrite insert_app_r_alt, Nat.sub_diag by done. Qed.

Section structure.

Variables (n : nat) (c : matrix).
Hypothesis Hc : is_shape n n c.

Lemma zero_diag_shape : is_shape n n (zero_diag n c).
Proof. by apply mk_dims_shape. Qed.

Lemma clipped_shape : is_shape n n (clipped n c).
Proof. apply fill_where_shape, zero_diag_shape. Qed.

Lemma get_clipped i j : i < n → j < n →
  get (clipped n c) i j =
    if decide (i = j) then zero
    else if slt0 (get c i j) then zero else get c i j.
Proof.
  intros Hi Hj. unfold clipped.
  rewrite (get_fill_where _ _ n n) by (done || apply zero_diag_shape).
  unfold zero_diag. rewrite (get_mk_dims n n) by done.
  destruct (decide (i = j)) as [->|Hij].
  - by rewrite bool_decide_eq_true_2.
  - rewrite bool_decide_eq_false_2; [done | by intros [? _]].
Qed.

Lemma averaged_shape : is_shape n n (averaged n c).
Proof.
  unfold averaged, mscale. apply mk_dims_shape.
  unfold madd. apply mk_dims_shape, clipped_shape.
Qed.

Lemma get_averaged i j : i < n → j < n →
  get (averaged n c) i j =
    smul (Num half) (sadd (get (clipped n c) i j) (get (clipped n c) j i)).
Proof.
  intros Hi Hj. pose proof clipped_shape as Hs. fold (clipped n c) in Hs.
  assert (is_shape n n (madd (clipped n c) (transpose (clipped n c)))) as Hm
    by (by apply mk_dims_shape).
  unfold averaged, mscale. rewrite (get_mk_dims n n) by done.
  unfold madd. rewrite (get_mk_dims n n) by done.
  by rewrite (get_transpose n n).
Qed.

End structure.

Lemma impose_structure_run n l c s :
  heap s !! l = Some c → is_shape n n c →
  impose_structure n l s =
    (inr (length (heap s)),
     State (<[l := clipped n c]> (heap s) ++ [averaged n c]) (trace s)).
Proof.
  intros Hl Hc. pose proof (lookup_lt_Some _ _ _ Hl) as Hlt.
  destruct (shape_dims _ _ _ Hc) as (Hr & Hk & Hk0).
  unfold impose_structure, set_diag_zero. mrun. rewrite Hl. mrun.
  rewrite decide_True; last first.
  { rewrite Hr. split; [done|]. destruct (decide (n = 0)); [lia|].
    rewrite Hk; lia. }
  mrun. rewrite !list_lookup_insert_eq by (rewrite ?length_insert; done).
  mrun. rewrite list_insert_insert_eq. fold (clipped n c).
  pose proof (clipped_shape n c Hc) as Hs.
  unfold np_add.
  rewrite (broadcast2_same_shape _ n n) by
    (done || (destruct (decide (n = 0)) as [->|];
              [rewrite (shape_zero _ _ Hs); split; [done|constructor]
              | apply (transpose_shape n n); [done | lia]])).
  mrun. by rewrite length_insert.
Qed.

Lemma impose_known_shape n r em :
  is_shape n n em → same_shape r em = true → is_shape n n (impose_known r em).
Proof.
  intros Hem [Hr Hk]%andb_prop.
  apply bool_decide_eq_true in Hr, Hk.
  destruct (shape_dims _ _ _ Hem) as (Hn & Hpos & Hz).
  unfold impose_known. rewrite Hr, Hk, Hn.
  destruct (decide (n = 0)) as [->|]; [split; [done | constructor]|].
  rewrite Hpos by lia. apply mk_shape.
Qed.

Lemma get_impose_known n r em i j :
  is_shape n n em → same_shape r em = true → i < n → j < n →
  get (impose_known r em) i j =
    if sgt0 (get em i j) then get em i j else get r i j.
Proof.
  intros Hem [Hr Hk]%andb_prop Hi Hj.
  apply bool_decide_eq_true in Hr, Hk.
  destruct (shape_dims _ _ _ Hem) as (Hn & Hpos & Hz).
  unfold impose_known. rewrite Hr, Hk, Hn, Hpos by lia. by rewrite get_mk.
Qed.

Section rank_alternation_run.

Variable low_rank_approximation : matrix → nat → exn + matrix.
Variable np_linalg_norm : matrix → scalar.

Variables (edm_missing : loc) (em : matrix) (n rank : nat).
Variable edm_true : option loc.
Hypothesis Hem : is_shape n n em.

Local Abbreviation step :=
  (rank_step low_rank_approximation np_linalg_norm edm_missing rank n edm_true).
Local Abbreviation loop :=
  (rank_loop low_rank_approximation np_linalg_norm edm_missing rank n edm_true).

(** A pass that completes appends two arrays to the heap: the working
    array after the in-place updates, and its average with its
    transpose, which is the new [edm_complete]. *)
Lemma rank_step_inv st s st' s' :
  heap s !! edm_missing = Some em →
  step st s = (inr st', s') →
  ∃ r, same_shape r em = true ∧
       st'.1 = S (length (heap s)) ∧
       heap s' = heap s ++ [clipped n (impose_known r em);
                            averaged n (impose_known r em)].
Proof.
  intros Hl. pose proof (lookup_lt_Some _ _ _ Hl) as Hlt.
  destruct st as [ec errs]. unfold rank_step, call_low_rank. mrun.
  destruct (low_rank_approximation _ rank) as [e|r]; mrun; [done|].
  rewrite !lookup_alloc, !(lookup_app_l _ _ edm_missing), Hl by done. mrun.
  destruct (same_shape r em) eqn:Hss; mrun; [|done].
  rewrite insert_alloc.
  erewrite (impose_structure_run n); last first.
  { by apply impose_known_shape. }
  { cbn [heap]. apply lookup_alloc. }
  cbn [heap trace]. rewrite insert_alloc, <- app_assoc. cbn [app].
  intros Hrun. exists r. split; [done|].
  destruct edm_true as [t|]; mrun.
  - revert Hrun. mrun.
    destruct (np_sub _ _); mrun; intros [= <- <-]; cbn [heap fst];
      by rewrite length_app, Nat.add_1_r.
  - revert Hrun. mrun. intros [= <- <-]. cbn [heap fst].
    by rewrite length_app, Nat.add_1_r.
Qed.

Lemma rank_loop_inv niter : ∀ st s st' s',
  heap s !! edm_missing = Some em →
  loop (S niter) st s = (inr st', s') →
  ∃ r, same_shape r em = true ∧
       heap s' !! edm_missing = Some em ∧
       heap s' !! st'.1 = Some (averaged n (impose_known r em)).
Proof.
  induction niter as [|k IH]; intros st s st' s' Hl;
    pose proof (lookup_lt_Some _ _ _ Hl) as Hlt;
    cbn [rank_loop]; rewrite run_bind;
    destruct (step st s) as [[e|st1] s1] eqn:Hstep; try done;
    destruct (rank_step_inv _ _ _ _ Hl Hstep) as (r & Hss & Hst & Hh).
  - rewrite run_ret. intros [= <- <-]. exists r. split; [done|].
    rewrite Hh, Hst. split.
    + by rewrite lookup_app_l.
    + by rewrite (lookup_app_r _ _ (S _)), Nat.sub_succ_l, Nat.sub_diag by lia.
  - apply IH. rewrite Hh. by rewrite lookup_app_l.
Qed.

Lemma rank_alternation_inv niter print_out s l errs s' :
  heap s !! edm_missing = Some em →
  1 ≤ niter →
  rank_alternation low_rank_approximation np_linalg_norm
    edm_missing rank niter print_out edm_true s = (inr (l, errs), s') →
  ∃ r, same_shape r em = true ∧
       heap s' !! edm_missing = Some em ∧
       heap s' !! l = Some (averaged n (impose_known r em)).
Proof.
  intros Hl Hn. pose proof (lookup_lt_Some _ _ _ Hl) as Hlt.
  unfold rank_alternation. mrun. rewrite Hl. mrun.
  rewrite (shape_nrows _ _ _ Hem), insert_alloc.
  destruct niter as [|k]; [lia|]. intros Hrun.
  apply rank_loop_inv in Hrun; [done|].
  cbn [heap]. by rewrite lookup_app_l.
Qed.

End rank_alternation_run.

(** Entries of the array a completed pass returns. *)
Section pass_entries.

Variables (n : nat) (em r : matrix).
Hypothesis Hem : is_shape n n em.
Hypothesis Hss : same_shape r em = true.

Lemma pass_shape : is_shape n n (averaged n (impose_known r em)).
Proof. by apply averaged_shape, impose_known_shape. Qed.

Lemma pass_diag i : i < n → get (averaged n (impose_known r em)) i i = zero.
Proof.
  intros Hi. pose proof (impose_known_shape _ _ _ Hem Hss) as Hc.
  rewrite get_averaged, smul_half_double, get_clipped by done.
  by rewrite decide_True.
Qed.

Lemma pass_symmetric i j : i < n → j < n →
  get (averaged n (impose_known r em)) i j =
  get (averaged n (impose_known r em)) j i.
Proof.
  intros Hi Hj. pose proof (impose_known_shape _ _ _ Hem Hss) as Hc.
  rewrite !get_averaged by done. f_equal.
  destruct (get (clipped _ _) i j), (get (clipped _ _) j i); simpl; try done.
  by rewrite Qcplus_comm.
Qed.

Lemma pass_known i j : i < n → j < n → i ≠ j →
  sgt0 (get em i j) = true → get em j i = get em i j →
  get (averaged n (impose_known r em)) i j = get em i j.
Proof.
  intros Hi Hj Hij Hpos Hmirror.
  pose proof (impose_known_shape _ _ _ Hem Hss) as Hc.
  rewrite get_averaged, !get_clipped by done.
  rewrite !decide_False by done.
  rewrite !(get_impose_known n) by done.
  rewrite Hmirror, Hpos, (sgt0_not_slt0 _ Hpos).
  apply smul_half_double.
Qed.

End pass_entries.

(** ** float64 arithmetic

    Facts on IEEE 754 binary64 numbers, from the Standard Library's
    specification of the machine operations ([SpecFloat], [FloatAxioms]):
    the two cancellations the module relies on are exact as long as the
    double of the number is finite. *)

Section float64.
Import SpecFloat PrimFloat FloatOps FloatAxioms.
Local Open Scope Z_scope.

Lemma f64_valid_finite s m e :
  valid_binary (S754_finite s m e) = true →
  fexp prec emax (Zpos (digits2_pos m) + e) = e ∧ e ≤ 971 ∧
  ((Zpos (digits2_pos m) = 53 ∧ -1074 ≤ e) ∨
   (e = -1074 ∧ Zpos (digits2_pos m) < 53)).
Proof.
  unfold SpecFloat.valid_binary, bounded, canonical_mantissa.
  intros [Hc He%Z.leb_le]%andb_prop. apply Z.eqb_eq in Hc.
  revert Hc He. unfold fexp, SpecFloat.emin, prec, emax. lia.
Qed.

Lemma f64_shr_exact p : ∀ m,
  iter_pos shr_1 p (Build_shr_record (Zpos (Pos.iter xO m p)) false false)
  = Build_shr_record (Zpos m) false false.
Proof.
  induction p as [p IH|p IH|]; intros m; cbn [Pos.iter iter_pos shr_1 orb].
  - by rewrite !IH.
  - by rewrite !IH.
  - done.
Qed.

Lemma f64_digits_iter p m :
  Zpos (digits2_pos (Pos.iter xO m p)) = Zpos (digits2_pos m) + Zpos p.
Proof.
  induction p as [|p IH] using Pos.peano_ind.
  - cbn. lia.
  - rewrite Pos.iter_succ. cbn [digits2_pos]. lia.
Qed.

(** Rounding a mantissa [m * 2^k] at an exponent [e] whose canonical
    exponent is [e + k] loses nothing. *)
Lemma f64_round_exact_shift s m p e :
  fexp prec emax (Zpos (digits2_pos m) + Zpos p + e) = e + Zpos p →
  binary_round_aux prec emax s (Zpos (Pos.iter xO m p)) e loc_Exact
  = if e + Zpos p <=? emax - prec then S754_finite s m (e + Zpos p)
    else S754_infinity s.
Proof.
  intros Hf. unfold binary_round_aux, shr_fexp.
  cbn [Zdigits2 shr_record_of_loc]. rewrite f64_digits_iter, Hf.
  replace (e + Zpos p - e) with (Zpos p) by lia.
  cbn [shr]. rewrite f64_shr_exact.
  cbn [shr_m loc_of_shr_record round_nearest_even Zdigits2 shr_record_of_loc].
  replace (Zpos (digits2_pos m) + (e + Zpos p))
    with (Zpos (digits2_pos m) + Zpos p + e) by lia.
  rewrite Hf, Z.sub_diag. done.
Qed.

Lemma f64_round_exact s m e :
  fexp prec emax (Zpos (digits2_pos m) + e) = e →
  binary_round_aux prec emax s (Zpos m) e loc_Exact
  = if e <=? emax - prec then S754_finite s m e else S754_infinity s.
Proof.
  intros Hf. unfold binary_round_aux, shr_fexp.
  cbn [Zdigits2 shr_record_of_loc]. rewrite Hf, Z.sub_diag.
  cbn [shr shr_m loc_of_shr_record round_nearest_even Zdigits2
       shr_record_of_loc].
  by rewrite Hf, Z.sub_diag.
Qed.


Lemma f64_add_self s m e :
  valid_binary (S754_finite s m e) = true →
  SF64add (S754_finite s m e) (S754_finite s m e) =
    if Zpos (digits2_pos m) =? 53
    then (if e + 1 <=? 971 then S754_finite s m (e + 1) else S754_infinity s)
    else S754_finite s m~0 e.
Proof.
  intros Hv. destruct (f64_valid_finite _ _ _ Hv) as (Hf & He & Hcase).
  unfold SF64add, SFadd. rewrite Z.min_id. unfold shl_align at 1 2.
  rewrite Z.sub_diag. cbn [fst].
  assert (cond_Zopp s (Zpos m) + cond_Zopp s (Zpos m)
          = cond_Zopp s (Zpos m~0)) as ->.
  { destruct s; unfold cond_Zopp; lia. }
  assert (binary_normalize prec emax (cond_Zopp s (Zpos m~0)) e false
          = binary_round prec emax s m~0 e) as -> by (by destruct s).
  unfold binary_round, shl_align. cbn [digits2_pos].
  rewrite Pos2Z.inj_succ.
  revert Hf. unfold fexp, SpecFloat.emin, prec, emax. intros Hf.
  destruct Hcase as [[Hd Hlo]|[-> Hd]].
  - rewrite Hd, Z.eqb_refl.
    replace (Z.max (Z.succ 53 + e - 53) (3 - 1024 - 53) - e) with 1 by lia.
    change (m~0)%positive with (Pos.iter xO m 1).
    rewrite f64_round_exact_shift; [done|].
    unfold fexp, SpecFloat.emin, prec, emax. lia.
  - replace (Zpos (digits2_pos m) =? 53) with false by lia.
    replace (Z.max (Z.succ (Zpos (digits2_pos m)) + -1074 - 53)
               (3 - 1024 - 53) - -1074) with 0 by lia.
    rewrite f64_round_exact; [done|].
    cbn [digits2_pos]. rewrite Pos2Z.inj_succ.
    unfold fexp, SpecFloat.emin, prec, emax. lia.
Qed.

(** The float64 numbers 1, 2 and 0.5. *)
Lemma f64_one_spec : Prim2SF one = S754_finite false 4503599627370496 (-52).
Proof. reflexivity. Qed.
Lemma f64_two_spec : Prim2SF two = S754_finite false 4503599627370496 (-51).
Proof. reflexivity. Qed.
Lemma f64_half_spec : Prim2SF 0.5%float = S754_finite false 4503599627370496 (-53).
Proof. reflexivity. Qed.

Lemma f64_mul_pow2_l ec s m e :
  SF64mul (S754_finite false 4503599627370496 ec) (S754_finite s m e)
  = binary_round_aux prec emax s (Zpos (Pos.iter xO m 52)) (ec + e) loc_Exact.
Proof. done. Qed.

Lemma f64_mul_pow2_r ec s m e :
  SF64mul (S754_finite s m e) (S754_finite false 4503599627370496 ec)
  = binary_round_aux prec emax s (Zpos (Pos.iter xO m 52)) (ec + e) loc_Exact.
Proof.
  unfold SF64mul, SFmul. rewrite xorb_false_r, Pos.mul_comm, (Z.add_comm e).
  done.
Qed.


Lemma f64_mul_one s m e :
  valid_binary (S754_finite s m e) = true →
  binary_round_aux prec emax s (Zpos (Pos.iter xO m 52)) (-52 + e) loc_Exact
  = S754_finite s m e.
Proof.
  intros Hv. destruct (f64_valid_finite _ _ _ Hv) as (Hf & He & _).
  rewrite f64_round_exact_shift.
  - replace (-52 + e + 52) with e by lia.
    replace (e <=? emax - prec) with true; [done|].
    unfold emax, prec. lia.
  - replace (Zpos (digits2_pos m) + 52 + (-52 + e))
      with (Zpos (digits2_pos m) + e) by lia.
    rewrite Hf. lia.
Qed.

Lemma f64_mul_two s m e :
  valid_binary (S754_finite s m e) = true →
  binary_round_aux prec emax s (Zpos (Pos.iter xO m 52)) (-51 + e) loc_Exact
  = SF64add (S754_finite s m e) (S754_finite s m e).
Proof.
  intros Hv. rewrite f64_add_self by done.
  destruct (f64_valid_finite _ _ _ Hv) as (Hf & He & [[Hd Hlo]|[-> Hd]]).
  - rewrite Hd, Z.eqb_refl. rewrite f64_round_exact_shift.
    + replace (-51 + e + 52) with (e + 1) by lia. done.
    + rewrite Hd. unfold fexp, SpecFloat.emin, prec, emax. lia.
  - replace (Zpos (digits2_pos m) =? 53) with false by lia.
    change (Pos.iter xO m 52) with (Pos.iter xO (m~0)%positive 51).
    rewrite f64_round_exact_shift; [done|].
    cbn [digits2_pos]. rewrite Pos2Z.inj_succ.
    unfold fexp, SpecFloat.emin, prec, emax. lia.
Qed.

Lemma f64_mul_half_double s m e :
  valid_binary (S754_finite s m e) = true →
  (∀ b, SF64add (S754_finite s m e) (S754_finite s m e) ≠ S754_infinity b) →
  SF64mul (S754_finite false 4503599627370496 (-53))
    (SF64add (S754_finite s m e) (S754_finite s m e))
  = S754_finite s m e.
Proof.
  intros Hv. rewrite f64_add_self by done.
  destruct (f64_valid_finite _ _ _ Hv) as (Hf & He & [[Hd Hlo]|[-> Hd]]).
  - rewrite Hd, Z.eqb_refl.
    destruct (e + 1 <=? 971) eqn:Hle; [|by intros Hinf; destruct (Hinf s)].
    intros _. rewrite f64_mul_pow2_l, f64_round_exact_shift.
    + replace (-53 + (e + 1) + 52) with e by lia.
      replace (e <=? emax - prec) with true; [done|].
      unfold emax, prec. lia.
    + rewrite Hd. unfold fexp, SpecFloat.emin, prec, emax. lia.
  - replace (Zpos (digits2_pos m) =? 53) with false by lia.
    intros _. rewrite f64_mul_pow2_l.
    change (Pos.iter xO (m~0)%positive 52) with (Pos.iter xO m 53).
    rewrite f64_round_exact_shift; [done|].
    unfold fexp, SpecFloat.emin, prec, emax. lia.
Qed.

Lemma f64_sub_self s m e :
  SF64sub (S754_finite s m e) (S754_finite s m e) = S754_zero false.
Proof.
  unfold SF64sub, SFsub. by rewrite Z.sub_diag.
Qed.

(** The two cancellations, on specified floats. *)
Lemma f64_SF_half_double x :
  valid_binary x = true →
  (∀ b, SF64add x x ≠ S754_infinity b) →
  SF64mul (S754_finite false 4503599627370496 (-53)) (SF64add x x) = x.
Proof.
  destruct x as [[]|[]| |s m e]; intros Hv Hinf;
    try done; try (by destruct (Hinf true)); try (by destruct (Hinf false)).
  by apply f64_mul_half_double.
Qed.

Lemma f64_SF_diag_cancel x :
  valid_binary x = true →
  x ≠ S754_nan →
  (∀ b, SF64add x x ≠ S754_infinity b) →
  SF64sub
    (SF64add (SF64mul x (S754_finite false 4503599627370496 (-52)))
             (SF64mul (S754_finite false 4503599627370496 (-52)) x))
    (SF64mul (S754_finite false 4503599627370496 (-51)) x)
  = S754_zero false.
Proof.
  destruct x as [[]|[]| |s m e]; intros Hv Hnan Hinf;
    try done; try (by destruct (Hinf true)); try (by destruct (Hinf false)).
  rewrite f64_mul_pow2_l, f64_mul_pow2_r, f64_mul_pow2_l, f64_mul_one, f64_mul_two by done.
  revert Hinf. rewrite f64_add_self by done.
  repeat case_match; intros Hinf;
    first [apply f64_sub_self | by destruct (Hinf s)].
Qed.

(** Classification of a float64 by its specification. *)
Lemma f64_is_infinity_spec x :
  is_infinity x = match Prim2SF x with S754_infinity _ => true | _ => false end.
Proof.
  unfold is_infinity. rewrite eqb_spec, abs_spec.
  change (Prim2SF infinity) with (S754_infinity false).
  by destruct (Prim2SF x) as [[]|[]| |[] m e].
Qed.

Lemma f64_is_nan_spec x :
  is_nan x = match Prim2SF x with S754_nan => true | _ => false end.
Proof.
  unfold is_nan. rewrite eqb_spec. unfold SFeqb, SFcompare.
  destruct (Prim2SF x) as [[]|[]| |[] m e]; try done;
    by rewrite Z.compare_refl, Pos.compare_cont_refl.
Qed.

(** Line 61 on an entry that faces itself: within the range in which the
    sum is finite, float64 gives the entry back. *)
Theorem f64_average_self (x : float) :
  is_infinity (x + x) = false → (0.5 * (x + x))%float = x.
Proof.
  rewrite f64_is_infinity_spec, add_spec. intros Hinf.
  apply Prim2SF_inj. rewrite mul_spec, add_spec, f64_half_spec.
  apply f64_SF_half_double; [apply Prim2SF_valid|].
  intros b Hb. by rewrite Hb in Hinf.
Qed.

(** Line 74 on the diagonal: within the same range the difference is
    zero. *)
Theorem f64_diag_cancel (x : float) :
  is_nan x = false →
  is_infinity (x + x) = false →
  (x * 1 + 1 * x - 2 * x)%float = 0%float.
Proof.
  rewrite f64_is_nan_spec, f64_is_infinity_spec, add_spec. intros Hnan Hinf.
  apply Prim2SF_inj.
  rewrite sub_spec, add_spec, !mul_spec.
  change (Prim2SF 1) with (S754_finite false 4503599627370496 (-52)).
  change (Prim2SF 2) with (S754_finite false 4503599627370496 (-51)).
  change (Prim2SF 0) with (S754_zero false).
  apply f64_SF_diag_cancel; [apply Prim2SF_valid| |].
  - intros Hx. by rewrite Hx in Hnan.
  - intros b Hb. by rewrite Hb in Hinf.
Qed.


(** Sums and products commute. *)
Lemma f64_add_comm (x y : float) : (x + y)%float = (y + x)%float.
Proof.
  apply Prim2SF_inj. rewrite !add_spec. unfold SF64add, SFadd.
  destruct (Prim2SF x) as [[]|[]| |sx mx ex],
           (Prim2SF y) as [[]|[]| |sy my ey]; try done.
  by rewrite Z.min_comm, Z.add_comm.
Qed.

Lemma f64_mul_comm (x y : float) : (x * y)%float = (y * x)%float.
Proof.
  apply Prim2SF_inj. rewrite !mul_spec. unfold SF64mul, SFmul.
  destruct (Prim2SF x) as [[]|[]| |sx mx ex],
           (Prim2SF y) as [[]|[]| |sy my ey]; try done;
    try (by destruct sx); try (by destruct sy).
  by rewrite xorb_comm, Pos.mul_comm, Z.add_comm.
Qed.

(** Two float64 numbers that compare equal are the same number, or two
    zeros. *)
Lemma f64_eqb_true (x y : float) :
  (x =? y)%float = true →
  x = y ∨ (∃ s1 s2, Prim2SF x = S754_zero s1 ∧ Prim2SF y = S754_zero s2).
Proof.
  rewrite eqb_spec. unfold SFeqb, SFcompare. intros H.
  destruct (Prim2SF x) as [sx|sx| |sx mx ex] eqn:Hx,
           (Prim2SF y) as [sy|sy| |sy my ey] eqn:Hy; try done;
    try (by destruct sx); try (by destruct sy).
  - right. by eauto.
  - left. apply Prim2SF_inj. rewrite Hx, Hy. by destruct sx, sy.
  - left. apply Prim2SF_inj. rewrite Hx, Hy.
    change (Pos.compare_cont Eq mx my) with (Pos.compare mx my) in H.
    destruct sx, sy; try done;
      destruct (Z.compare_spec ex ey) as [->| |]; try done;
      destruct (Pos.compare_spec mx my) as [->| |]; done.
Qed.


Lemma f64_ltb_pos_not_neg (x : float) :
  (0 <? x)%float = true → (x <? 0)%float = false.
Proof.
  rewrite !ltb_spec. change (Prim2SF 0) with (S754_zero false).
  by destruct (Prim2SF x) as [[]|[]| |[] m e].
Qed.

Lemma f64_eqb_zero_l (x : float) : (x =? 0)%float = true → (0 =? x)%float = true.
Proof.
  rewrite !eqb_spec. change (Prim2SF 0) with (S754_zero false).
  by destruct (Prim2SF x) as [[]|[]| |[] m e].
Qed.

(** The average of two zeros is a zero. *)
Lemma f64_average_zeros (x y : float) s1 s2 :
  Prim2SF x = S754_zero s1 → Prim2SF y = S754_zero s2 →
  (f64.average x y =? x)%float = true.
Proof.
  intros Hx Hy. unfold f64.average.
  rewrite eqb_spec, mul_spec, add_spec, Hx, Hy, f64_half_spec.
  by destruct s1, s2.
Qed.

Local Close Scope Z_scope.

Lemma f64_get_mk n k f i j : i < n → j < k → f64.get (f64.mk n k f) i j = f i j.
Proof.
  intros Hi Hj. unfold f64.get, f64.mk.
  rewrite list_lookup_fmap, lookup_seq_lt by done. simpl.
  by rewrite list_lookup_fmap, lookup_seq_lt by done.
Qed.

Lemma f64_valid_entry N c i j :
  f64.valid N c = true → i < N → j < N →
  (i = j → (f64.get c i j =? 0)%float = true) ∧
  (f64.get c i j <? 0)%float = false ∧
  (f64.get c i j =? f64.get c j i)%float = true.
Proof.
  unfold f64.valid. rewrite forallb_forall. intros Hv Hi Hj.
  assert (In i (seq 0 N)) as Hin by (apply in_seq; lia).
  specialize (Hv i Hin). rewrite forallb_forall in Hv.
  assert (In j (seq 0 N)) as Hjn by (apply in_seq; lia).
  specialize (Hv j Hjn).
  apply andb_prop in Hv as [[Hd Hn]%andb_prop He].
  split; [|split; [by apply negb_true_iff|done]].
  intros ->. by rewrite decide_True in Hd.
Qed.

(** Lines 59 to 61 in float64, on an array that already has the
    structure: every entry whose double is finite comes back equal. *)
Lemma f64_structure_idempotent N c i j :
  f64.valid N c = true → i < N → j < N →
  f64.in_range (f64.get c i j) = true →
  f64.equal (f64.get (f64.impose_structure N c) i j) (f64.get c i j) = true.
Proof.
  unfold f64.in_range, f64.equal. intros Hv Hi Hj Hfin%negb_true_iff.
  destruct (f64_valid_entry N c i j Hv Hi Hj) as (Hd & Hn & He).
  destruct (f64_valid_entry N c j i Hv Hj Hi) as (_ & Hn' & _).
  unfold f64.impose_structure. cbv zeta. rewrite !f64_get_mk by done.
  destruct (decide (i = j)) as [->|Hij].
  - rewrite decide_True by done.
    change (0 <? 0)%float with false. cbv iota.
    change (f64.average 0 0) with 0%float.
    by apply f64_eqb_zero_l, Hd.
  - rewrite !decide_False by done. rewrite Hn, Hn'.
    destruct (f64_eqb_true _ _ He) as [Heq|(s1 & s2 & Hx & Hy)].
    + rewrite <- Heq. unfold f64.average. rewrite f64_average_self by done.
      by rewrite <- Heq in He.
    + by eapply f64_average_zeros.
Qed.

(** Lines 56 to 61 in float64: an observed entry off the diagonal whose
    mirror entry holds the same number, and whose double is finite, is
    the entry of the result. *)
Lemma f64_pass_known N r em i j :
  i < N → j < N → i ≠ j →
  f64.observed (f64.get em i j) = true →
  f64.get em j i = f64.get em i j →
  f64.in_range (f64.get em i j) = true →
  f64.get (f64.impose_structure N (f64.impose_known N r em)) i j
  = f64.get em i j.
Proof.
  unfold f64.in_range. intros Hi Hj Hij Hpos Hmirror Hfin%negb_true_iff.
  unfold f64.impose_structure, f64.impose_known. cbv zeta.
  unfold f64.observed in *.
  rewrite !f64_get_mk by done. rewrite !decide_False by done.
  rewrite Hmirror, Hpos.
  rewrite (f64_ltb_pos_not_neg _ Hpos).
  unfold f64.average. by apply f64_average_self.
Qed.

Lemma f64_structure_diag N c i :
  i < N → f64.get (f64.impose_structure N c) i i = 0%float.
Proof.
  intros Hi. unfold f64.impose_structure. cbv zeta.
  rewrite !f64_get_mk by done. by rewrite decide_True.
Qed.

(** Line 74 in float64. *)
Lemma f64_kappa_symmetric N g i j :
  i < N → j < N →
  f64.get g i j = f64.get g j i →
  f64.get (f64.kappa N g) i j = f64.get (f64.kappa N g) j i.
Proof.
  intros Hi Hj Hsym. unfold f64.kappa. rewrite !f64_get_mk by done.
  rewrite Hsym. f_equal.
  rewrite (f64_mul_comm (f64.get g i i)), (f64_mul_comm 1 (f64.get g j j)).
  apply f64_add_comm.
Qed.

Lemma f64_kappa_diag N g i :
  i < N →
  f64.is_number (f64.get g i i) = true →
  f64.in_range (f64.get g i i) = true →
  f64.get (f64.kappa N g) i i = 0%float.
Proof.
  unfold f64.is_number, f64.in_range.
  intros Hi Hnan%negb_true_iff Hfin%negb_true_iff. unfold f64.kappa. rewrite f64_get_mk by done.
  by apply f64_diag_cancel.
Qed.

End float64.


(** ** Measurement fidelity of rank alternation *)

(** C1, as stated, fails: with one iteration on [asym_edm] the observed
    entry (0, 1), measured as 4, is returned as 3, the average of 4 and its
    mirror entry 2.  Both entries are observed, so line 56 writes them
    whatever the low-rank routine returned. *)
Lemma C1_counterexample :
  let run := rank_alternation lra_exact norm_unused 0 2 1 false None
               (State [asym_edm] []) in
  run.1 = inr (3, []) ∧
  sgt0 (get asym_edm 0 1) = true ∧
  ∃ c, heap run.2 !! 3 = Some c ∧
       get asym_edm 0 1 = q 4 ∧ get c 0 1 = q 3 ∧
       get c 0 1 ≠ get asym_edm 0 1.
Proof.
  cbv zeta. split; [compute_done|]. split; [compute_done|].
  eexists. split; [by vm_compute|]. repeat split; compute_done.
Qed.

(** C1, amended: on a square masked EDM and with at least one iteration,
    every observed off-diagonal entry whose mirror entry holds the same
    value, and whose double is within the range of float64, is returned
    exactly as measured.  The first part is on the routine as a whole, in
    the arithmetic of the model; the second is on lines 56 to 61 of the
    last pass in float64, [r] being what the low-rank routine answered.
    Beyond the range the sum of line 61 is an infinity, see
    [f64_average_overflow]. *)
Theorem C1_rank_alternation_fidelity :
  (∀ low_rank_approximation np_linalg_norm
     (edm_missing : loc) (em : matrix) (n rank niter : nat) print_out
     edm_true (s : state) (l : loc) errs (s' : state) (i j : nat),
     is_shape n n em →
     heap s !! edm_missing = Some em →
     1 ≤ niter →
     rank_alternation low_rank_approximation np_linalg_norm
       edm_missing rank niter print_out edm_true s = (inr (l, errs), s') →
     i < n → j < n → i ≠ j →
     sgt0 (get em i j) = true →
     get em j i = get em i j →
     in_range (sadd (get em i j) (get em i j)) →
     ∃ c, heap s' !! l = Some c ∧ get c i j = get em i j) ∧
  (∀ (N : nat) (r em : list (list PrimFloat.float)) (i j : nat),
     i < N → j < N → i ≠ j →
     f64.observed (f64.get em i j) = true →
     f64.get em j i = f64.get em i j →
     f64.in_range (f64.get em i j) = true →
     f64.get (f64.impose_structure N (f64.impose_known N r em)) i j
     = f64.get em i j).
Proof.
  split.
  - intros lra norm edm_missing em n rank niter print_out edm_true s l errs
      s' i j Hem Hl Hn Hrun Hi Hj Hij Hpos Hmirror _.
    destruct (rank_alternation_inv _ _ _ _ _ _ _ Hem _ _ _ _ _ _ Hl Hn Hrun)
      as (r & Hss & _ & Hc).
    eexists. split; [exact Hc|]. by apply pass_known.
  - intros. by apply f64_pass_known.
Qed.

Lemma C1_rank_alternation_fidelity_witness :
  (∃ c, heap (rank_alternation lra_exact norm_unused 0 1 1 false None
                (State [sym_edm] [])).2 !! 3 = Some c
        ∧ get c 0 1 = get sym_edm 0 1) ∧
  f64.get (f64.impose_structure 2 (f64.impose_known 2 f64.guess f64.sym_edm))
    0 1
  = f64.get f64.sym_edm 0 1.
Proof.
  destruct C1_rank_alternation_fidelity as (Hmodel & Hfloat). split.
  - apply (Hmodel lra_exact norm_unused 0 sym_edm 2 1 1
             false None (State [sym_edm] []) 3 [] _ 0 1).
    + split; [done | by repeat constructor].
    + done.
    + lia.
    + apply injective_projections; [by vm_compute | done].
    + lia.
    + lia.
    + done.
    + by vm_compute.
    + done.
    + split; by vm_compute.
  - apply (Hfloat 2 f64.guess f64.sym_edm 0 1).
    + lia.
    + lia.
    + done.
    + by vm_compute.
    + by vm_compute.
    + by vm_compute.
Defined.

(** What line 61 computes for an entry of 2^1023 that faces itself: the
    sum is beyond the largest float64, and half an infinity is an
    infinity.  At the two ends of the range within which the double is
    finite, the entry comes back as it is. *)
Lemma f64_average_overflow :
  f64.average f64.huge f64.huge = PrimFloat.infinity ∧
  f64.average f64.half_max f64.half_max = f64.half_max ∧
  f64.average f64.tiny f64.tiny = f64.tiny.
Proof. repeat split; by vm_compute. Qed.

(** ** Idempotence of the structure step *)

Lemma clipped_valid n c :
  is_shape n n c →
  (∀ i, i < n → get c i i = zero) →
  (∀ i j, i < n → j < n → slt0 (get c i j) = false) →
  clipped n c = c.
Proof.
  intros Hc Hdiag Hpos.
  apply (matrix_ext n n); [by apply clipped_shape | done |].
  intros i j Hi Hj. rewrite get_clipped by done.
  destruct (decide (i = j)) as [->|]; [by rewrite Hdiag|].
  by rewrite Hpos.
Qed.

Lemma averaged_valid n c :
  is_shape n n c →
  (∀ i, i < n → get c i i = zero) →
  (∀ i j, i < n → j < n → slt0 (get c i j) = false) →
  transpose c = c →
  averaged n c = c.
Proof.
  intros Hc Hdiag Hpos Hsym.
  apply (matrix_ext n n); [by apply averaged_shape | done |].
  intros i j Hi Hj.
  rewrite get_averaged, (clipped_valid n c) by done.
  replace (get c j i) with (get c i j); [apply smul_half_double|].
  rewrite <- Hsym at 1. by apply (get_transpose n n).
Qed.

(** C9, as stated, fails where float64 overflows: the array
    [f64.huge_edm] has a zero diagonal, no negative entry and equals its
    transpose, and the structure step returns an infinity in the place of
    its entry 2^1023, whose double is beyond the largest float64. *)
Lemma C9_counterexample :
  f64.valid 2 f64.huge_edm = true ∧
  f64.impose_structure 2 f64.huge_edm
    = [[PrimFloat.zero; PrimFloat.infinity];
       [PrimFloat.infinity; PrimFloat.zero]] ∧
  PrimFloat.eqb (f64.get (f64.impose_structure 2 f64.huge_edm) 0 1)
                (f64.get f64.huge_edm 0 1) = false.
Proof. repeat split; by vm_compute. Qed.

(** C9, amended: the structure step of rank alternation (lines 59 to 61),
    run on an array that already has a zero diagonal, no negative entry
    and equals its transpose, and whose entries can be doubled within the
    range of float64, returns an array with the same value, and leaves
    the same value in the array it updates in place.  The first part is
    on the step as the module runs it, in the arithmetic of the model; the
    second is on its float64 arithmetic: every entry of the result whose
    double is finite compares equal to the entry of the argument. *)
Theorem C9_structure_idempotent :
  (∀ (n : nat) (l : loc) (c : matrix) (s : state),
     heap s !! l = Some c →
     is_shape n n c →
     (∀ i, i < n → get c i i = zero) →
     (∀ i j, i < n → j < n → slt0 (get c i j) = false) →
     transpose c = c →
     (∀ i j, i < n → j < n → in_range (sadd (get c i j) (get c i j))) →
     ∃ l' s', impose_structure n l s = (inr l', s') ∧
              heap s' !! l' = Some c ∧ heap s' !! l = Some c) ∧
  (∀ (N : nat) (c : list (list PrimFloat.float)) (i j : nat),
     f64.valid N c = true →
     i < N → j < N →
     f64.in_range (f64.get c i j) = true →
     f64.equal (f64.get (f64.impose_structure N c) i j) (f64.get c i j)
     = true).
Proof.
  split.
  - intros n l c s Hl Hc Hdiag Hpos Hsym _.
    pose proof (lookup_lt_Some _ _ _ Hl) as Hlt.
    eexists _, _. split; [by apply impose_structure_run|].
    rewrite clipped_valid, averaged_valid by done. cbn [heap]. split.
    + rewrite lookup_app_r, length_insert, Nat.sub_diag
        by (by rewrite length_insert).
      done.
    + rewrite lookup_app_l by (by rewrite length_insert).
      by apply list_lookup_insert_eq.
  - intros. by apply f64_structure_idempotent.
Qed.

Lemma C9_structure_idempotent_witness :
  (∃ l' s', impose_structure 2 0 (State [sym_edm] []) = (inr l', s') ∧
            heap s' !! l' = Some sym_edm ∧ heap s' !! 0 = Some sym_edm) ∧
  f64.equal (f64.get (f64.impose_structure 2 f64.sym_edm) 0 1)
            (f64.get f64.sym_edm 0 1) = true.
Proof.
  destruct C9_structure_idempotent as (Hmodel & Hfloat). split.
  - apply (Hmodel 2 0 sym_edm (State [sym_edm] [])).
    + done.
    + split; [done | by repeat constructor].
    + intros [|[|i]] Hi; [compute_done | compute_done | lia].
    + intros [|[|i]] [|[|j]] Hi Hj; try lia; compute_done.
    + apply (matrix_ext 2 2);
        [by apply mk_shape | split; [done | by repeat constructor] |].
      intros [|[|i]] [|[|j]] Hi Hj; try lia; compute_done.
    + intros [|[|i]] [|[|j]] Hi Hj; try lia; split; by vm_compute.
  - apply (Hfloat 2 f64.sym_edm 0 1).
    + by vm_compute.
    + lia.
    + lia.
    + by vm_compute.
Defined.

(** ** optspace *)

Section optspace_run.

Variable opt_space :
  matrix → nat → nat → scalar → bool → exn + (matrix * matrix * matrix).

(** A call that returns has built [X.dot(S.dot(Y.T))] and zeroed the first
    [N] entries of its diagonal, in a new array. *)
Lemma optspace_inv edm_missing rank niter tol print_out s l s' :
  optspace opt_space edm_missing rank niter tol print_out s = (inr l, s') →
  ∃ X S_ Y,
    opt_space (default [] (heap s !! edm_missing)) rank niter tol print_out
      = inr (X, S_, Y) ∧
    let P := matmul X (matmul S_ (transpose Y)) in
    let N := nrows (default [] (heap s !! edm_missing)) in
    N ≤ nrows P ∧ N ≤ ncols P ∧
    l = length (heap s) ∧
    heap s' = heap s ++ [zero_diag N P].
Proof.
  unfold optspace, call_opt_space, set_diag_zero. mrun.
  destruct (opt_space _ _ _ _ _) as [e|[[X S_] Y]]; mrun; [done|].
  unfold np_dot.
  destruct (decide (ncols S_ = nrows (transpose Y))); mrun; [|done].
  destruct (decide (ncols X = nrows (matmul S_ (transpose Y)))); mrun; [|done].
  rewrite lookup_alloc. mrun.
  destruct (decide (_ ∧ _)) as [[HN1 HN2]|]; mrun; [|done].
  rewrite insert_alloc. intros [= <- <-]. by exists X, S_, Y.
Qed.

End optspace_run.

Lemma get_zero_diag N m i j :
  i < nrows m → j < ncols m →
  get (zero_diag N m) i j =
    if decide (i = j ∧ i < N) then zero else get m i j.
Proof.
  intros Hi Hj. unfold zero_diag. rewrite get_mk by done.
  destruct (decide (i = j ∧ i < N)).
  - by rewrite bool_decide_eq_true_2.
  - by rewrite bool_decide_eq_false_2.
Qed.

(** ** The kernel transform, numeric and symbolic *)

Lemma nrows_mk n k f : nrows (mk n k f) = n.
Proof. unfold nrows, mk. by rewrite length_fmap, length_seq. Qed.

Lemma ncols_mk n k f : 0 < n → ncols (mk n k f) = k.
Proof. intros Hn. apply (shape_ncols n); [apply mk_shape | done]. Qed.

Lemma sadd_zero_r a : sadd a zero = a.
Proof. destruct a; simpl; [|done]. by rewrite Qcplus_0_r. Qed.

Lemma smul_one_r a : smul a one = a.
Proof. destruct a; simpl; [|done]. by rewrite Qcmult_1_r. Qed.

Lemma smul_one_l a : smul one a = a.
Proof. destruct a; simpl; [|done]. by rewrite Qcmult_1_l. Qed.

Lemma np_diag_length k g : is_shape k k g → length (np_diag g) = k.
Proof.
  intros Hg. unfold np_diag. rewrite length_fmap, length_seq.
  destruct (shape_dims _ _ _ Hg) as (-> & Hpos & Hz).
  destruct (decide (k = 0)) as [->|]; [done|]. rewrite Hpos; lia.
Qed.

Lemma np_diag_lookup k g i :
  is_shape k k g → i < k → np_diag g !! i = Some (get g i i).
Proof.
  intros Hg Hi. unfold np_diag.
  destruct (shape_dims _ _ _ Hg) as (-> & Hpos & Hz).
  rewrite Hpos, Nat.min_id by lia.
  by rewrite list_lookup_fmap, lookup_seq_lt.
Qed.

Lemma get_np_outer u v i j x y :
  u !! i = Some x → v !! j = Some y → get (np_outer u v) i j = smul x y.
Proof.
  intros Hx Hy. unfold np_outer.
  rewrite get_mk by (by eapply lookup_lt_Some). by rewrite Hx, Hy.
Qed.

Lemma kappa_shape k g : is_shape k k g → is_shape k k (kappa g).
Proof.
  intros Hg. unfold kappa, msub. apply mk_dims_shape.
  unfold madd. apply mk_dims_shape.
  unfold np_outer, np_ones.
  rewrite (np_diag_length k), length_replicate by done.
  rewrite (proj1 Hg). apply mk_shape.
Qed.

(** The entries of [kappa], as numpy computes them. *)
Lemma get_kappa k g i j :
  is_shape k k g → i < k → j < k →
  get (kappa g) i j =
    ssub (sadd (smul (get g i i) one) (smul one (get g j j)))
         (smul (Num two) (get g i j)).
Proof.
  intros Hg Hi Hj. unfold kappa.
  assert (length g = k) as Hlen by apply Hg.
  assert (is_shape k k (np_outer (np_diag g) (np_ones (length g)))) as Ho.
  { unfold np_outer, np_ones.
    rewrite (np_diag_length k), length_replicate, Hlen by done.
    apply mk_shape. }
  unfold msub. rewrite (get_mk_dims k k) by first [done | by apply mk_dims_shape].
  unfold madd at 1. rewrite (get_mk_dims k k) by done.
  unfold mscale. rewrite (get_mk_dims k k) by done.
  rewrite (get_np_outer _ _ i j (get g i i) one),
    (get_np_outer _ _ i j one (get g j j)); try done.
  - unfold np_ones. apply lookup_replicate_2. lia.
  - by apply (np_diag_lookup k).
  - by apply (np_diag_lookup k).
  - unfold np_ones. apply lookup_replicate_2. lia.
Qed.

Lemma cvx_diag_column n g :
  is_shape n n g → 0 < n → cvx_diag g = mk n 1 (λ i _, get g i i).
Proof.
  intros Hg Hn. unfold cvx_diag.
  rewrite (shape_nrows _ _ _ Hg), (shape_ncols _ _ _ Hg) by done.
  destruct (decide (n = 1)) as [->|]; [|done].
  apply (matrix_ext 1 1); [apply mk_shape | apply mk_shape |].
  intros i j Hi Hj. rewrite !get_mk by done.
  replace i with 0 by lia. replace j with 0 by lia. done.
Qed.

Section symbolic.

Variable cvx_norm : matrix → scalar.

Lemma eval_kappa_cvx H gram n i j :
  is_shape n n (eval cvx_norm H gram) → i < n → j < n →
  get (eval cvx_norm H (kappa_cvx gram n)) i j =
    ssub (sadd (smul (get (eval cvx_norm H gram) i i) one)
               (smul one (get (eval cvx_norm H gram) j j)))
         (smul (Num two) (get (eval cvx_norm H gram) i j)).
Proof.
  set (g := eval cvx_norm H gram). intros Hg Hi Hj.
  assert (0 < n) as Hn by lia.
  unfold kappa_cvx. cbn [eval]. fold g.
  rewrite (cvx_diag_column n) by done.
  unfold transpose. rewrite !nrows_mk, !ncols_mk by done.
  unfold matmul. rewrite !nrows_mk, !ncols_mk by lia.
  unfold msub, madd, mscale. rewrite !nrows_mk, !ncols_mk by done.
  rewrite (shape_nrows _ _ _ Hg), (shape_ncols _ _ _ Hg) by done.
  rewrite !get_mk by done. cbn [seq fmap list_fmap ssum foldr].
  rewrite !get_mk by lia. by rewrite !sadd_zero_r.
Qed.

Lemma eval_kappa_cvx_shape H gram n :
  is_shape n n (eval cvx_norm H gram) →
  is_shape n n (eval cvx_norm H (kappa_cvx gram n)).
Proof.
  set (g := eval cvx_norm H gram). intros Hg.
  destruct (decide (n = 0)) as [->|Hn].
  { unfold kappa_cvx. cbn [eval]. fold g. rewrite (shape_zero _ _ Hg).
    split; [done | constructor]. }
  unfold kappa_cvx. cbn [eval]. fold g.
  rewrite (cvx_diag_column n) by (done || lia).
  unfold transpose. rewrite !nrows_mk, !ncols_mk by lia.
  unfold matmul. rewrite !nrows_mk, !ncols_mk by lia.
  unfold msub, madd. rewrite !nrows_mk, !ncols_mk by lia. apply mk_shape.
Qed.

(** C4: the symbolic transform [kappa_cvx], evaluated, and the numeric
    transform [kappa] are the same function on n by n arrays; entry (i, j)
    of the result is [G[i,i] + G[j,j] - 2 * G[i,j]]. *)
Theorem C4_kappa_cvx_kappa (H : matrix) (gram : expr) (n : nat) :
  is_shape n n (eval cvx_norm H gram) →
  eval cvx_norm H (kappa_cvx gram n) = kappa (eval cvx_norm H gram) ∧
  ∀ i j, i < n → j < n →
    get (kappa (eval cvx_norm H gram)) i j =
      ssub (sadd (get (eval cvx_norm H gram) i i)
                 (get (eval cvx_norm H gram) j j))
           (smul (Num two) (get (eval cvx_norm H gram) i j)).
Proof.
  intros Hg. split.
  - apply (matrix_ext n n);
      [by apply eval_kappa_cvx_shape | by apply kappa_shape |].
    intros i j Hi Hj.
    by rewrite eval_kappa_cvx, (get_kappa n) by done.
  - intros i j Hi Hj.
    by rewrite (get_kappa n), smul_one_r, smul_one_l by done.
Qed.

End symbolic.

Lemma C4_kappa_cvx_kappa_witness :
  eval norm_unused [] (kappa_cvx (Const gram3) 3) = kappa gram3 ∧
  ∀ i j, i < 3 → j < 3 →
    get (kappa gram3) i j =
      ssub (sadd (get gram3 i i) (get gram3 j j))
           (smul (Num two) (get gram3 i j)).
Proof.
  apply (C4_kappa_cvx_kappa norm_unused [] (Const gram3) 3).
  split; [done | by repeat constructor].
Defined.

(** ** semidefinite_relaxation *)

Lemma seq0_zero a : seq0 a = true → a = zero.
Proof.
  destruct a as [x|]; simpl; [|done].
  intros Hx%bool_decide_eq_true. by rewrite Hx.
Qed.

(** Zeroing an array where it is zero already leaves its value. *)
Lemma mask_self n k em :
  is_shape n k em →
  mk (nrows em) (ncols em)
     (λ i j, if seq0 (get em i j) then zero else get em i j) = em.
Proof.
  intros Hem. pose proof (shape_rect _ _ _ Hem) as Hr.
  apply (matrix_ext (nrows em) (ncols em)); [apply mk_shape | done |].
  intros i j Hi Hj. rewrite get_mk by done.
  destruct (seq0 (get em i j)) eqn:Hz; [|done]. by rewrite (seq0_zero _ Hz).
Qed.

Lemma sdr_objective_inl method lamda n V em wv e :
  sdr_objective method lamda n V em wv = inl e →
  (e = UnboundLocalError "obj" ∧
   method ≠ "maximize"%string ∧ method ≠ "minimize"%string) ∨
  (e = ValueError ∧ ncols em ≠ n ∧ n ≠ 1 ∧
   (method = "maximize"%string ∨ method = "minimize"%string)).
Proof.
  unfold sdr_objective. cbv zeta.
  repeat case_decide; try done; intros [= <-];
    first [ left; by repeat split
          | right; repeat split; [tauto | tauto | by eauto] ].
Qed.

Lemma sdr_objective_inr method lamda n V em wv obj :
  sdr_objective method lamda n V em wv = inr obj →
  (method = "maximize"%string ∨ method = "minimize"%string) ∧
  (ncols em = n ∨ n = 1).
Proof.
  unfold sdr_objective. cbv zeta. repeat case_decide; (done || auto).
Qed.

Section weights.

Variables (edm_missing : loc) (em : matrix) (n k : nat).
Hypothesis Hem : is_shape n k em.

(** The weights step never changes the value of [edm_missing]; it fails
    on a supplied array of another shape, before anything is written. *)
Lemma sdr_weights_inv W s res s1 :
  heap s !! edm_missing = Some em →
  sdr_weights edm_missing W s = (res, s1) →
  trace s1 = trace s ∧
  heap s1 !! edm_missing = Some em ∧
  match res with
  | inl e =>
      e = IndexError ∧ s1 = s ∧
      ∃ w, W = Some w ∧ same_shape (default [] (heap s !! w)) em = false
  | inr wl =>
      match W with
      | None => wl = length (heap s) ∧ ∃ m, heap s1 = heap s ++ [m]
      | Some w =>
          wl = w ∧ same_shape (default [] (heap s !! w)) em = true ∧
          ∃ m, heap s1 = <[w := m]> (heap s)
      end
  end.
Proof.
  intros Hl. pose proof (lookup_lt_Some _ _ _ Hl) as Hlt.
  unfold sdr_weights. mrun. rewrite Hl. mrun.
  destruct W as [w|]; mrun.
  - destruct (same_shape _ em) eqn:Hss; mrun; intros [= <- <-]; cbn [trace heap].
    + split; [done|]. split; [|by eauto].
      destruct (decide (w = edm_missing)) as [->|Hne].
      * rewrite list_lookup_insert_eq, Hl by done. mrun.
        by rewrite (mask_self n k).
      * by rewrite list_lookup_insert_ne.
    + split; [done|]. split; [done|]. by eauto.
  - intros [= <- <-]. cbn [trace heap]. split; [done|].
    split; [by rewrite lookup_app_l | by eauto].
Qed.

End weights.

Section sdr_run.

Variable cvx_solve : objective → gmap string string → exn + solve_result.
Variable np_sqrt : scalar → scalar.

Variables (edm_missing : loc) (em : matrix) (n k : nat).
Hypothesis Hem : is_shape n k em.

(** Every way a call can end.  Either it raises before the solver is
    reached, and the trace is as it was; or the solver is called once, only
    prints follow, and the result is decided by what the solver answered,
    unless a diagnostic of [print_out] raises. *)
Lemma sdr_inv lamda W print_out kwargs s res s' :
  heap s !! edm_missing = Some em →
  semidefinite_relaxation cvx_solve np_sqrt
    edm_missing lamda W print_out kwargs s = (res, s') →
  heap s' !! edm_missing = Some em ∧
  ((trace s' = trace s ∧
    ∃ e, res = inl e ∧
         (e = IndexError ∨ e = ValueError ∨ e = UnboundLocalError "obj")) ∨
   (∃ obj opts prints,
      trace s' = trace s ++ SolveCall obj opts (cvx_solve obj opts) :: prints ∧
      Forall (λ ev, ∃ label, ev = Print label) prints ∧
      match cvx_solve obj opts with
      | inl e => res = inl e
      | inr r =>
          match H_value r with
          | None => res = inr edm_missing
          | Some Hv =>
              (∃ l, res = inr l ∧ length (heap s) ≤ l ∧
                    (print_out = true → n ≠ 2) ∧
                    heap s' !! l =
                      Some (kappa (gram_best (centering_basis np_sqrt n) Hv))) ∨
              (print_out = true ∧
               (res = inl (ExternalError "LinAlgError") ∨
                res = inl ValueError))
          end
      end)).
Proof.
  intros Hl. unfold semidefinite_relaxation. cbv zeta. rewrite run_bind.
  destruct (sdr_weights edm_missing W s) as [[e|wl] s1] eqn:Hw;
    destruct (sdr_weights_inv _ _ _ _ Hem _ _ _ _ Hl Hw) as (Htr & Hl1 & Hres).
  { intros [= <- <-]. destruct Hres as (-> & -> & _). split; [done|].
    left. split; [done|]. eauto. }
  assert (length (heap s) ≤ length (heap s1)) as Hlen.
  { destruct W as [w|].
    - destruct Hres as (_ & _ & m & ->). by rewrite length_insert.
    - destruct Hres as (_ & m & ->). rewrite length_app. lia. }
  clear Hres. mrun. rewrite Hl1. mrun. rewrite (shape_nrows _ _ _ Hem).
  destruct (decide (n = 0)); mrun.
  { intros [= <- <-]. split; [done|]. left. split; [done|]. eauto. }
  destruct (sdr_objective _ _ _ _ _ _) as [e|obj] eqn:Hobj; mrun.
  { intros [= <- <-]. split; [done|]. left. split; [done|].
    apply sdr_objective_inl in Hobj as [(-> & _)|(-> & _)]; eauto. }
  unfold call_solve. mrun.
  destruct (cvx_solve obj _) as [e|r] eqn:Hs; mrun.
  { intros [= <- <-]. split; [done|]. right. eexists obj, _, [].
    rewrite Hs. cbn [trace]. by rewrite Htr. }
  pose proof (lookup_lt_Some _ _ _ Hl1) as Hlt.
  unfold sdr_result.
  destruct (H_value r) as [Hv|] eqn:HH; cbv zeta.
  - destruct print_out; cbn [andb]; mrun;
      [destruct (has_nan _); mrun;
         [|destruct (decide (n - 1 = 1)); mrun]|];
      intros [= <- <-]; cbn [heap trace];
      (split; [by rewrite ?lookup_app_l|]); right;
      eexists obj, _, _; rewrite Hs, HH, Htr, <- ?app_assoc; cbn [app];
      (split; [reflexivity|]); (split; [repeat constructor; eauto|]);
      try (right; by eauto);
      left; eexists; (split; [done|]); (split; [done|]);
      (split; [intros; lia|]); apply lookup_alloc.
  - destruct print_out; mrun;
      intros [= <- <-]; cbn [heap trace];
      (split; [done|]); right;
      eexists obj, _, _; rewrite Hs, HH, Htr, <- ?app_assoc; cbn [app];
      (split; [reflexivity|]); (split; [repeat constructor; eauto|]); done.
Qed.

End sdr_run.

Lemma centering_basis_shape np_sqrt n :
  2 ≤ n → is_shape n (n - 1) (centering_basis np_sqrt n).
Proof.
  intros Hn. unfold centering_basis. cbv zeta. unfold transpose.
  rewrite (nrows_mk (n - 1) n), (ncols_mk (n - 1) n) by lia. apply mk_shape.
Qed.

Lemma gram_best_shape np_sqrt n Hv :
  2 ≤ n → is_shape n n (gram_best (centering_basis np_sqrt n) Hv).
Proof.
  intros Hn. pose proof (centering_basis_shape np_sqrt n Hn) as HV.
  set (V := centering_basis np_sqrt n) in *.
  assert (nrows (matmul V Hv) = n) as Hr.
  { unfold matmul. by rewrite nrows_mk, (shape_nrows _ _ _ HV). }
  assert (ncols (transpose V) = n) as Hc.
  { unfold transpose.
    by rewrite (shape_nrows _ _ _ HV), (shape_ncols _ _ _ HV), ncols_mk by lia. }
  unfold gram_best, matmul at 1. rewrite Hr, Hc. apply mk_shape.
Qed.

Lemma gram_best_small np_sqrt n Hv :
  n < 2 → gram_best (centering_basis np_sqrt n) Hv = [].
Proof.
  intros Hn. unfold gram_best, centering_basis.
  replace (n - 1) with 0 by lia. done.
Qed.

(** The diagonal of [kappa(Gbest)] is zero wherever the diagonal of
    [Gbest] is a number. *)
Lemma kappa_gram_best_diag np_sqrt n Hv i x :
  get (gram_best (centering_basis np_sqrt n) Hv) i i = Num x →
  get (kappa (gram_best (centering_basis np_sqrt n) Hv)) i i = zero.
Proof.
  intros Hx. destruct (decide (n < 2)) as [Hn|Hn].
  { by rewrite gram_best_small in Hx. }
  pose proof (gram_best_shape np_sqrt n Hv ltac:(lia)) as Hg.
  assert (i < n) as Hi.
  { destruct (decide (i < n)); [done|]. exfalso.
    unfold get in Hx. rewrite lookup_ge_None_2 in Hx; [done|].
    rewrite (proj1 Hg). lia. }
  rewrite (get_kappa n), Hx by done. simpl. unfold zero. f_equal.
  apply gram_diag_cancel.
Qed.

Section sdr_answer.

Variable cvx_solve : objective → gmap string string → exn + solve_result.
Variable np_sqrt : scalar → scalar.

(** If the events of a call contain an answer [r] of the solver, the
    result of the call is the one that answer decides, unless a diagnostic
    of [print_out] raises. *)
Lemma sdr_answer edm_missing em n k lamda W print_out kwargs s res s'
    evs obj opts r :
  is_shape n k em →
  heap s !! edm_missing = Some em →
  semidefinite_relaxation cvx_solve np_sqrt
    edm_missing lamda W print_out kwargs s = (res, s') →
  trace s' = trace s ++ evs →
  SolveCall obj opts (inr r) ∈ evs →
  heap s' !! edm_missing = Some em ∧
  match H_value r with
  | None => res = inr edm_missing
  | Some Hv =>
      (∃ l, res = inr l ∧ length (heap s) ≤ l ∧
            (print_out = true → n ≠ 2) ∧
            heap s' !! l =
              Some (kappa (gram_best (centering_basis np_sqrt n) Hv))) ∨
      (print_out = true ∧
       (res = inl (ExternalError "LinAlgError") ∨ res = inl ValueError))
  end.
Proof.
  intros Hem Hl Hrun Htr Hev.
  destruct (sdr_inv cvx_solve np_sqrt _ _ _ _ Hem _ _ _ _ _ _ _ Hl Hrun)
    as (Hl' & [(Htr' & _) | (obj' & opts' & prints & Htr' & Hpr & Hres)]);
    (split; [done|]).
  - rewrite <- (app_nil_r (trace s)), Htr in Htr'.
    apply app_inv_head in Htr'. subst evs. by apply elem_of_nil in Hev.
  - rewrite Htr in Htr'. apply app_inv_head in Htr'. subst evs.
    apply elem_of_cons in Hev as [Heq | Hin].
    + injection Heq as <- <- Hout. by rewrite <- Hout in Hres.
    + rewrite Forall_forall in Hpr. by destruct (Hpr _ Hin).
Qed.

End sdr_answer.

(** ** The solver produced no value *)

(** C3: when the convex solver answers without a value for [H],
    [semidefinite_relaxation] returns its input array [edm_missing], whose
    value is the one it had before the call. *)
Theorem C3_sdr_fallback_returns_input
    cvx_solve np_sqrt (edm_missing : loc) (em : matrix) (n k : nat)
    lamda W print_out kwargs (s : state) res (s' : state) evs obj opts r :
  is_shape n k em →
  heap s !! edm_missing = Some em →
  semidefinite_relaxation cvx_solve np_sqrt
    edm_missing lamda W print_out kwargs s = (res, s') →
  trace s' = trace s ++ evs →
  SolveCall obj opts (inr r) ∈ evs →
  H_value r = None →
  res = inr edm_missing ∧ heap s' !! edm_missing = Some em.
Proof.
  intros Hem Hl Hrun Htr Hev Hnone.
  destruct (sdr_answer _ _ _ _ _ _ _ _ _ _ _ _ _ _ _ _ _ Hem Hl Hrun Htr Hev)
    as (Hl' & Hres).
  by rewrite Hnone in Hres.
Qed.

(** ** An objective mode that is neither of the two *)

(** C10: with a [method] other than ['maximize'] and ['minimize'], on a
    masked EDM of two points or more and with weights that are absent or of
    the input's shape, the name [obj] is never bound: the call raises the
    unbound-variable error, and the trace is as before the call, so the
    solver was not invoked. *)
Theorem C10_sdr_method_unbound
    cvx_solve np_sqrt (edm_missing : loc) (em : matrix) (n k : nat)
    lamda W print_out (kwargs : gmap string string) (method : string)
    (s : state) :
  is_shape n k em →
  2 ≤ n →
  heap s !! edm_missing = Some em →
  (∀ w, W = Some w → same_shape (default [] (heap s !! w)) em = true) →
  kwargs !! "method"%string = Some method →
  method ≠ "maximize"%string →
  method ≠ "minimize"%string →
  ∃ s', semidefinite_relaxation cvx_solve np_sqrt
          edm_missing lamda W print_out kwargs s
          = (inl (UnboundLocalError "obj"), s') ∧
        trace s' = trace s.
Proof.
  intros Hem Hn Hl HW Hm Hmax Hmin.
  unfold semidefinite_relaxation. cbv zeta. rewrite run_bind.
  destruct (sdr_weights edm_missing W s) as [[e|wl] s1] eqn:Hw;
    destruct (sdr_weights_inv _ _ _ _ Hem _ _ _ _ Hl Hw) as (Htr & Hl1 & Hres).
  { destruct Hres as (_ & _ & w & HWw & Hss). by rewrite (HW w HWw) in Hss. }
  mrun. rewrite Hl1, Hm. mrun.
  rewrite (shape_nrows _ _ _ Hem), decide_False by lia. mrun.
  unfold sdr_objective. rewrite !decide_False by done. by eexists.
Qed.

(** ** What a call leaves in the heap and in the trace *)

Section rank_alternation_frame.

Variable low_rank_approximation : matrix → nat → exn + matrix.
Variable np_linalg_norm : matrix → scalar.
Variables (edm_missing : loc) (rank N : nat) (edm_true : option loc).

(** However a pass ends, it has called the low-rank routine once, on the
    current array, and has only added arrays to the heap. *)
Lemma rank_step_frame ec errs s res s' :
  rank_step low_rank_approximation np_linalg_norm
    edm_missing rank N edm_true (ec, errs) s = (res, s') →
  trace s' = trace s ++ [LowRankCall (default [] (heap s !! ec)) rank] ∧
  ∃ new, heap s' = heap s ++ new.
Proof.
  unfold rank_step, call_low_rank, impose_structure, set_diag_zero. mrun.
  destruct (low_rank_approximation _ rank) as [e|r]; mrun;
    [intros [= <- <-]; split; [done | by exists []; rewrite app_nil_r]|].
  rewrite !lookup_alloc. mrun.
  destruct (same_shape r _); mrun;
    [|intros [= <- <-]; split; [done | by eexists]].
  rewrite !(insert_alloc (heap s)), !lookup_alloc. mrun.
  destruct (decide (_ ∧ _)); mrun;
    [|intros [= <- <-]; split; [done | by eexists]].
  repeat progress (rewrite ?(insert_alloc (heap s)), ?lookup_alloc; mrun).
  destruct (np_add _ _); mrun;
    [|intros [= <- <-]; split; [done | by eexists]].
  destruct edm_true as [t|]; mrun;
    [destruct (np_sub _ _); mrun|];
    intros [= <- <-]; cbn [heap trace]; (split; [done|]);
    rewrite <- app_assoc; by eexists.
Qed.

Lemma rank_loop_frame niter : ∀ st s res s',
  rank_loop low_rank_approximation np_linalg_norm
    edm_missing rank N edm_true niter st s = (res, s') →
  (∃ evs, trace s' = trace s ++ evs ∧
     (0 < niter →
      ∃ evs', evs = LowRankCall (default [] (heap s !! st.1)) rank :: evs')) ∧
  ∃ new, heap s' = heap s ++ new.
Proof.
  induction niter as [|k IH]; intros [ec errs] s res s'; cbn [rank_loop].
  - rewrite run_ret. intros [= <- <-]. split.
    + exists []. split; [by rewrite app_nil_r | lia].
    + exists []. by rewrite app_nil_r.
  - rewrite run_bind.
    destruct (rank_step _ _ _ _ _ _ _ s) as [[e|st1] s1] eqn:Hstep;
      destruct (rank_step_frame _ _ _ _ _ Hstep) as (Htr & new & Hh).
    + intros [= <- <-]. split; [|by eauto]. eexists. split; [exact Htr|].
      by eauto.
    + intros Hloop.
      destruct (IH _ _ _ _ Hloop) as ((evs & Htr' & _) & new' & Hh').
      split.
      * eexists. split; [by rewrite Htr', Htr, <- app_assoc|]. by eauto.
      * exists (new ++ new'). by rewrite Hh', Hh, <- app_assoc.
Qed.

End rank_alternation_frame.

Lemma rank_alternation_frame low_rank_approximation np_linalg_norm
    edm_missing rank niter print_out edm_true s res s' :
  rank_alternation low_rank_approximation np_linalg_norm
    edm_missing rank niter print_out edm_true s = (res, s') →
  (∃ evs, trace s' = trace s ++ evs) ∧ ∃ new, heap s' = heap s ++ new.
Proof.
  unfold rank_alternation. mrun. rewrite lookup_alloc, insert_alloc. mrun.
  intros Hloop.
  destruct (rank_loop_frame _ _ _ _ _ _ _ _ _ _ _ Hloop)
    as ((evs & Htr & _) & new & Hh).
  cbn [heap trace] in *. split; [by eauto|].
  eexists. by rewrite Hh, <- app_assoc.
Qed.

(** ** Exceptions of rank alternation *)

Section rank_alternation_exceptions.

Variable low_rank_approximation : matrix → nat → exn + matrix.
Variable np_linalg_norm : matrix → scalar.
Variables (edm_missing : loc) (rank N : nat) (edm_true : option loc).

Lemma rank_step_exn ec errs s e s' :
  rank_step low_rank_approximation np_linalg_norm
    edm_missing rank N edm_true (ec, errs) s = (inl e, s') →
  e = IndexError ∨ e = ValueError ∨
  low_rank_approximation (default [] (heap s !! ec)) rank = inl e.
Proof.
  unfold rank_step, call_low_rank, impose_structure, set_diag_zero. mrun.
  destruct (low_rank_approximation _ rank) as [e'|r]; mrun;
    [intros [= <- <-]; by eauto|].
  rewrite !lookup_alloc. mrun.
  destruct (same_shape r _); mrun; [|intros [= <- <-]; by eauto].
  repeat progress (rewrite ?(insert_alloc (heap s)), ?lookup_alloc; mrun).
  destruct (decide (_ ∧ _)); mrun; [|intros [= <- <-]; by eauto].
  repeat progress (rewrite ?(insert_alloc (heap s)), ?lookup_alloc; mrun).
  destruct (np_add _ _); mrun; [|intros [= <- <-]; by eauto].
  destruct edm_true as [t|]; mrun; [|done].
  destruct (np_sub _ _); mrun; [done|]. intros [= <- <-]. by eauto.
Qed.

Lemma rank_loop_exn niter : ∀ st s e s',
  rank_loop low_rank_approximation np_linalg_norm
    edm_missing rank N edm_true niter st s = (inl e, s') →
  e = IndexError ∨ e = ValueError ∨
  ∃ a, low_rank_approximation a rank = inl e.
Proof.
  induction niter as [|k IH]; intros [ec errs] s e s'; cbn [rank_loop].
  - by rewrite run_ret.
  - rewrite run_bind.
    destruct (rank_step _ _ _ _ _ _ _ s) as [[e'|st1] s1] eqn:Hstep.
    + intros [= <- <-].
      destruct (rank_step_exn _ _ _ _ _ Hstep) as [?|[?|?]]; by eauto.
    + apply IH.
Qed.

End rank_alternation_exceptions.

(** ** No observed entry *)

Lemma select_gt0_zeros em :
  Forall (Forall (λ x, x = zero)) em → select_gt0 em = [].
Proof.
  intros Hz. unfold select_gt0.
  induction Hz as [|row em Hrow _ IH]; [done|].
  cbn [concat]. rewrite filter_app, IH, app_nil_r.
  induction Hrow as [|x row -> _ IHrow]; [done|].
  by rewrite filter_cons_False.
Qed.

Lemma fill_zeros v em :
  Forall (Forall (λ x, x = zero)) em →
  Forall (Forall (λ x, x = v)) (fill_where seq0 v em).
Proof.
  intros Hz. unfold fill_where. apply Forall_fmap.
  eapply Forall_impl; [exact Hz|]. intros row Hrow. cbn.
  apply Forall_fmap. eapply Forall_impl; [exact Hrow|]. by intros x ->.
Qed.

Lemma np_mean_empty : np_mean [] = NaN.
Proof. done. Qed.

(** C6, amended: on a masked EDM without any observed entry
    [rank_alternation] makes no check.  The mean of the empty selection is
    NaN and fills the working copy; with [niter = 0] that array is
    returned, and with [niter >= 1] it is what the low-rank routine is
    called with first.  An exception of that first call reaches the
    caller unchanged; and whatever the shape of the input, an exception
    of the call is one the low-rank routine raised, or numpy's
    [IndexError] or [ValueError] for arrays whose shapes do not fit: the
    routine has no error of its own. *)
Theorem C6_rank_alternation_no_observation
    low_rank_approximation np_linalg_norm
    (edm_missing : loc) (em : matrix) (rank : nat) print_out edm_true
    (s : state) :
  heap s !! edm_missing = Some em →
  Forall (Forall (λ x, x = zero)) em →
  ∃ nan,
    Forall (Forall (λ x, x = NaN)) nan ∧ length nan = length em ∧
    rank_alternation low_rank_approximation np_linalg_norm
      edm_missing rank 0 print_out edm_true s
      = (inr (length (heap s), []), State (heap s ++ [nan]) (trace s)) ∧
    (∀ k res s',
       rank_alternation low_rank_approximation np_linalg_norm
         edm_missing rank (S k) print_out edm_true s = (res, s') →
       ∃ evs, trace s' = trace s ++ LowRankCall nan rank :: evs) ∧
    (∀ k e,
       low_rank_approximation nan rank = inl e →
       rank_alternation low_rank_approximation np_linalg_norm
         edm_missing rank (S k) print_out edm_true s
         = (inl e, State (heap s ++ [nan])
                         (trace s ++ [LowRankCall nan rank]))) ∧
    (∀ k e s',
       rank_alternation low_rank_approximation np_linalg_norm
         edm_missing rank k print_out edm_true s = (inl e, s') →
       e = IndexError ∨ e = ValueError ∨
       ∃ a, low_rank_approximation a rank = inl e).
Proof.
  intros Hl Hz. exists (fill_where seq0 NaN em).
  split; [by apply fill_zeros|].
  split; [unfold fill_where; by rewrite length_fmap|].
  assert (∀ niter,
    rank_alternation low_rank_approximation np_linalg_norm
      edm_missing rank niter print_out edm_true s =
    rank_loop low_rank_approximation np_linalg_norm
      edm_missing rank (nrows em) edm_true niter (length (heap s), [])
      (State (heap s ++ [fill_where seq0 NaN em]) (trace s))) as Hrun.
  { intros niter. unfold rank_alternation. mrun. rewrite Hl. mrun.
    by rewrite lookup_alloc, insert_alloc, select_gt0_zeros, np_mean_empty. }
  split; [by rewrite Hrun|]. split; [|split].
  - intros k res s'. rewrite Hrun. intros Hloop.
    destruct (rank_loop_frame _ _ _ _ _ _ _ _ _ _ _ Hloop)
      as ((evs & Htr & Hfirst) & _).
    destruct (Hfirst ltac:(lia)) as (evs' & ->).
    cbn [heap trace fst] in Htr. rewrite lookup_alloc in Htr. by eauto.
  - intros k e He. rewrite Hrun. cbn [rank_loop]. rewrite run_bind.
    unfold rank_step, call_low_rank. mrun. rewrite lookup_alloc. mrun.
    by rewrite He.
  - intros k e s'. rewrite Hrun. apply rank_loop_exn.
Qed.

(** ** Inputs that are not checked *)

Lemma same_shape_of_shape n k a b :
  is_shape n k a → is_shape n k b → same_shape a b = true.
Proof.
  intros Ha Hb. unfold same_shape.
  destruct (shape_dims _ _ _ Ha) as (Ha1 & Ha2 & Ha3).
  destruct (shape_dims _ _ _ Hb) as (Hb1 & Hb2 & Hb3).
  rewrite !bool_decide_eq_true_2; [done | | congruence].
  destruct (decide (n = 0)); [rewrite Ha3, Hb3 | rewrite Ha2, Hb2]; (done || lia).
Qed.

Section rank_alternation_square.

Variable low_rank_approximation : matrix → nat → exn + matrix.
Variable np_linalg_norm : matrix → scalar.
Variables (edm_missing : loc) (em : matrix) (n rank : nat).
Variable edm_true : option loc.
Hypothesis Hem : is_shape n n em.

(** Whenever the low-rank routine answers on an n by n array, its answer
    has the shape of the input. *)
Hypothesis Hlra : ∀ a r, is_shape n n a →
  low_rank_approximation a rank = inr r → same_shape r em = true.

(** A pass on which the low-rank routine answers completes. *)
Lemma rank_step_answer ec errs a r s :
  heap s !! edm_missing = Some em →
  heap s !! ec = Some a →
  truth_fits n edm_true s →
  low_rank_approximation a rank = inr r →
  same_shape r em = true →
  ∃ errs',
    rank_step low_rank_approximation np_linalg_norm
      edm_missing rank n edm_true (ec, errs) s =
    (inr (S (length (heap s)), errs'),
     State (heap s ++ [clipped n (impose_known r em);
                       averaged n (impose_known r em)])
           (trace s ++ [LowRankCall a rank])).
Proof.
  intros Hl Ha Ht Hr Hss. pose proof (lookup_lt_Some _ _ _ Hl) as Hlt.
  unfold rank_step, call_low_rank. mrun. rewrite Ha. mrun.
  rewrite Hr. mrun.
  rewrite !lookup_alloc, !(lookup_app_l _ _ edm_missing), Hl by done. mrun.
  rewrite Hss. mrun. rewrite insert_alloc.
  erewrite (impose_structure_run n); last first.
  { by apply impose_known_shape. }
  { cbn [heap]. apply lookup_alloc. }
  cbn [heap trace]. rewrite insert_alloc, <- app_assoc. cbn [app].
  destruct edm_true as [t|] eqn:Het; mrun.
  - destruct (Ht t eq_refl) as (tv & Htv & Hstv).
    rewrite length_app, Nat.add_1_r.
    rewrite (lookup_app_r _ _ (S _)), Nat.sub_succ_l, Nat.sub_diag by lia.
    rewrite (lookup_app_l_Some _ _ _ _ Htv).
    cbn [lookup list_lookup default from_option id].
    unfold np_sub.
    rewrite (broadcast2_same_shape _ n n) by (done || by apply pass_shape).
    by eexists.
  - rewrite length_app, Nat.add_1_r. by eexists.
Qed.

(** On a square input the loop returns, or passes on an exception that
    the low-rank routine raised on an n by n array. *)
Lemma rank_loop_square niter : ∀ ec errs a s res s',
  heap s !! edm_missing = Some em →
  heap s !! ec = Some a → is_shape n n a →
  truth_fits n edm_true s →
  rank_loop low_rank_approximation np_linalg_norm
    edm_missing rank n edm_true niter (ec, errs) s = (res, s') →
  (∃ l errs', res = inr (l, errs')) ∨
  (∃ e a', is_shape n n a' ∧ res = inl e ∧
           low_rank_approximation a' rank = inl e).
Proof.
  induction niter as [|k IH]; intros ec errs a s res s' Hl Ha Hsa Ht;
    cbn [rank_loop].
  - rewrite run_ret. intros [= <- <-]. left. by eauto.
  - rewrite run_bind.
    destruct (low_rank_approximation a rank) as [e|r] eqn:Hr.
    + unfold rank_step, call_low_rank. mrun. rewrite Ha. mrun. rewrite Hr.
      mrun. intros [= <- <-]. right. by eauto.
    + pose proof (Hlra a r Hsa Hr) as Hss.
      destruct (rank_step_answer ec errs a r s Hl Ha Ht Hr Hss)
        as (errs' & ->).
      pose proof (lookup_lt_Some _ _ _ Hl) as Hlt.
      apply (IH _ _ (averaged n (impose_known r em))); cbn [heap].
      * by rewrite lookup_app_l.
      * by rewrite (lookup_app_r _ _ (S _)), Nat.sub_succ_l, Nat.sub_diag
          by lia.
      * by apply pass_shape.
      * intros t Het. destruct (Ht t Het) as (tv & Htv & Hstv).
        exists tv. split; [by apply lookup_app_l_Some | done].
Qed.

Lemma rank_alternation_square niter print_out s res s' :
  heap s !! edm_missing = Some em →
  truth_fits n edm_true s →
  rank_alternation low_rank_approximation np_linalg_norm
    edm_missing rank niter print_out edm_true s = (res, s') →
  (∃ l errs, res = inr (l, errs)) ∨
  (∃ e a, is_shape n n a ∧ res = inl e ∧
          low_rank_approximation a rank = inl e).
Proof.
  intros Hl Ht. pose proof (lookup_lt_Some _ _ _ Hl) as Hlt.
  unfold rank_alternation. mrun. rewrite Hl. mrun.
  rewrite lookup_alloc, insert_alloc, (shape_nrows _ _ _ Hem).
  apply (rank_loop_square niter _ _
           (fill_where seq0 (np_mean (select_gt0 em)) em)); cbn [heap].
  - by rewrite lookup_app_l.
  - apply lookup_alloc.
  - by apply fill_where_shape.
  - intros t Het. destruct (Ht t Het) as (tv & Htv & Hstv).
    exists tv. split; [by apply lookup_app_l_Some | done].
Qed.

End rank_alternation_square.

(** C7, amended: the module has no validation step of its own.  A weight
    array of another shape stops [semidefinite_relaxation] at the masked
    assignment of line 87, with numpy's IndexError and before anything
    else is done.  An input of two rows or more that is not square stops
    it at line 99 or 101, where cvxpy refuses the difference of arrays of
    different dimensions with a ValueError, before the solver is invoked.
    The rank is never compared with N: on a square input, with or without
    a ground truth of the same size, [rank_alternation] returns for any
    rank unless the low-rank routine itself raises, as long as the answers
    of that routine have the shape of the input. *)
Theorem C7_inputs_not_validated :
  (∀ cvx_solve np_sqrt (edm_missing w : loc) (em : matrix) (n k : nat)
     lamda print_out kwargs (s : state),
     is_shape n k em →
     heap s !! edm_missing = Some em →
     same_shape (default [] (heap s !! w)) em = false →
     semidefinite_relaxation cvx_solve np_sqrt
       edm_missing lamda (Some w) print_out kwargs s = (inl IndexError, s)) ∧
  (∀ cvx_solve np_sqrt (edm_missing : loc) (em : matrix) (n k : nat)
     lamda W print_out (kwargs : gmap string string) (s : state),
     is_shape n k em →
     2 ≤ n →
     k ≠ n →
     heap s !! edm_missing = Some em →
     (∀ w, W = Some w → same_shape (default [] (heap s !! w)) em = true) →
     kwargs !! "method"%string = None ∨
     kwargs !! "method"%string = Some "maximize"%string ∨
     kwargs !! "method"%string = Some "minimize"%string →
     ∃ s', semidefinite_relaxation cvx_solve np_sqrt
             edm_missing lamda W print_out kwargs s = (inl ValueError, s') ∧
           trace s' = trace s) ∧
  (∀ low_rank_approximation np_linalg_norm (edm_missing : loc) (em : matrix)
     (n rank niter : nat) print_out edm_true (s : state) res (s' : state),
     is_shape n n em →
     heap s !! edm_missing = Some em →
     truth_fits n edm_true s →
     (∀ a r, is_shape n n a →
        low_rank_approximation a rank = inr r → same_shape r em = true) →
     rank_alternation low_rank_approximation np_linalg_norm
       edm_missing rank niter print_out edm_true s = (res, s') →
     (∃ l errs, res = inr (l, errs)) ∨
     (∃ e a, is_shape n n a ∧ res = inl e ∧
             low_rank_approximation a rank = inl e)).
Proof.
  split; [|split].
  - intros cvx_solve np_sqrt edm_missing w em n k lamda print_out kwargs s
      Hem Hl Hss.
    unfold semidefinite_relaxation, sdr_weights. cbv zeta. mrun.
    rewrite Hl. mrun. by rewrite Hss.
  - intros cvx_solve np_sqrt edm_missing em n k lamda W print_out kwargs s
      Hem Hn Hk Hl HW Hm.
    unfold semidefinite_relaxation. cbv zeta. rewrite run_bind.
    destruct (sdr_weights edm_missing W s) as [[e|wl] s1] eqn:Hw;
      destruct (sdr_weights_inv _ _ _ _ Hem _ _ _ _ Hl Hw)
        as (Htr & Hl1 & Hres).
    { destruct Hres as (_ & _ & w & HWw & Hss).
      by rewrite (HW w HWw) in Hss. }
    mrun. rewrite Hl1. mrun.
    rewrite (shape_nrows _ _ _ Hem), decide_False by lia. mrun.
    unfold sdr_objective. cbv zeta.
    rewrite (shape_ncols _ _ _ Hem) by lia.
    rewrite (decide_False (P := k = n ∨ n = 1)) by lia.
    destruct Hm as [->|[->| ->]]; cbn [default from_option id];
      [rewrite decide_True by done
      |rewrite decide_True by done
      |rewrite (decide_False (P := _ = "maximize"%string)), decide_True
         by done];
      rewrite ?(decide_False (P := k = n ∨ n = 1)) by lia;
      mrun; by exists s1.
  - intros lra norm edm_missing em n rank niter print_out edm_true s res s'
      Hem Hl Ht Hlra Hrun.
    by eapply (rank_alternation_square lra norm edm_missing em n rank
                 edm_true Hem Hlra).
Qed.

(** ** Zero diagonal *)

(** C2, as stated, fails on two returns: the fallback of
    [semidefinite_relaxation] returns the input, here with its diagonal of
    ones, and [rank_alternation] with [niter = 0] returns the mean-filled
    copy, whose diagonal holds the mean 4. *)
Lemma C2_counterexample :
  let sdr := semidefinite_relaxation solve_infeasible sqrt_table
               0 (q 1) None false ∅ (State [diag_edm] []) in
  let ra := rank_alternation lra_exact norm_unused 0 1 0 false None
              (State [sym_edm] []) in
  (sdr.1 = inr 0 ∧
   ∃ c, heap sdr.2 !! 0 = Some c ∧ get c 0 0 = q 1 ∧ get c 0 0 ≠ zero) ∧
  (ra.1 = inr (1, []) ∧
   ∃ c, heap ra.2 !! 1 = Some c ∧ get c 0 0 = q 4 ∧ get c 0 0 ≠ zero).
Proof.
  cbv zeta. split; (split; [compute_done|]); eexists;
    (split; [by vm_compute|]); split; compute_done.
Qed.

(** What line 74 computes on the diagonal for a Gram matrix with 2^1023
    there: both the sum and the product are infinities, and their
    difference is NaN.  With the largest float64 whose double is finite,
    the difference is zero. *)
Lemma f64_kappa_overflow :
  PrimFloat.is_nan (f64.get (f64.kappa 2 f64.huge_gram) 0 0) = true ∧
  PrimFloat.is_nan (f64.get (f64.kappa 2 f64.huge_gram) 1 1) = true ∧
  f64.get (f64.kappa 1 [[f64.half_max]]) 0 0 = PrimFloat.zero.
Proof. repeat split; by vm_compute. Qed.

(** C2, amended: [optspace] returns an array whose first N diagonal
    entries are zero; [rank_alternation] returns an array with a zero
    diagonal when it runs at least one iteration on a square input;
    [semidefinite_relaxation] returns one with a zero diagonal when the
    solver produced a value for [H], wherever the diagonal entry of the
    Gram matrix [Gbest] is a number whose double is within the range of
    float64.  The last two parts are the float64 arithmetic behind the
    second and the third: the diagonal that lines 59 to 61 leave, and the
    diagonal that line 74 computes. *)
Theorem C2_zero_diagonal :
  (∀ opt_space (edm_missing : loc) (em : matrix) rank niter tol print_out
     (s : state) (l : loc) (s' : state) (i : nat),
     heap s !! edm_missing = Some em →
     optspace opt_space edm_missing rank niter tol print_out s = (inr l, s') →
     i < nrows em →
     ∃ c, heap s' !! l = Some c ∧ get c i i = zero) ∧
  (∀ low_rank_approximation np_linalg_norm (edm_missing : loc) (em : matrix)
     (n rank niter : nat) print_out edm_true (s : state) (l : loc) errs
     (s' : state) (i : nat),
     is_shape n n em →
     heap s !! edm_missing = Some em →
     1 ≤ niter →
     rank_alternation low_rank_approximation np_linalg_norm
       edm_missing rank niter print_out edm_true s = (inr (l, errs), s') →
     i < n →
     ∃ c, heap s' !! l = Some c ∧ get c i i = zero) ∧
  (∀ cvx_solve np_sqrt (edm_missing : loc) (em : matrix) (n k : nat)
     lamda W print_out kwargs (s : state) (l : loc) (s' : state)
     evs obj opts r Hv (i : nat) (x : Qc),
     is_shape n k em →
     heap s !! edm_missing = Some em →
     semidefinite_relaxation cvx_solve np_sqrt
       edm_missing lamda W print_out kwargs s = (inr l, s') →
     trace s' = trace s ++ evs →
     SolveCall obj opts (inr r) ∈ evs →
     H_value r = Some Hv →
     get (gram_best (centering_basis np_sqrt n) Hv) i i = Num x →
     in_range (sadd (Num x) (Num x)) →
     ∃ c, heap s' !! l = Some c ∧ get c i i = zero) ∧
  (∀ (N : nat) (c : list (list PrimFloat.float)) (i : nat),
     i < N →
     f64.get (f64.impose_structure N c) i i = PrimFloat.zero) ∧
  (∀ (N : nat) (g : list (list PrimFloat.float)) (i : nat),
     i < N →
     f64.is_number (f64.get g i i) = true →
     f64.in_range (f64.get g i i) = true →
     f64.get (f64.kappa N g) i i = PrimFloat.zero).
Proof.
  split; [|split; [|split; [|split]]].
  - intros opt_space edm_missing em rank niter tol print_out s l s' i
      Hl Hrun Hi.
    destruct (optspace_inv _ _ _ _ _ _ _ _ _ Hrun)
      as (X & S_ & Y & _ & HN1 & HN2 & -> & ->).
    rewrite Hl in HN1, HN2. cbn [default from_option id] in HN1, HN2.
    eexists. split; [apply lookup_alloc|].
    rewrite Hl. cbn [default from_option id].
    rewrite get_zero_diag by lia. by rewrite decide_True.
  - intros lra norm edm_missing em n rank niter print_out edm_true s l errs
      s' i Hem Hl Hn Hrun Hi.
    destruct (rank_alternation_inv _ _ _ _ _ _ _ Hem _ _ _ _ _ _ Hl Hn Hrun)
      as (r & Hss & _ & Hc).
    eexists. split; [exact Hc|]. by apply pass_diag.
  - intros cvx_solve np_sqrt edm_missing em n k lamda W print_out kwargs
      s l s' evs obj opts r Hv i x Hem Hl Hrun Htr Hev HHv Hx _.
    destruct (sdr_answer _ _ _ _ _ _ _ _ _ _ _ _ _ _ _ _ _ Hem Hl Hrun Htr Hev)
      as (_ & Hres).
    rewrite HHv in Hres.
    destruct Hres as [(l' & [= <-] & _ & _ & Hc)|(_ & [[=]|[=]])].
    eexists. split; [exact Hc|]. by eapply kappa_gram_best_diag.
  - intros. by apply f64_structure_diag.
  - intros. by apply f64_kappa_diag.
Qed.

Lemma C2_zero_diagonal_witness :
  (∃ c, heap (optspace (factors eye2 diag_edm eye2)
                0 2 500 (q 0) false (State [diag_edm] [])).2 !! 1
          = Some c ∧ get c 1 1 = zero) ∧
  (∃ c, heap (rank_alternation lra_exact norm_unused 0 1 1 false None
                (State [sym_edm] [])).2 !! 3 = Some c ∧ get c 1 1 = zero) ∧
  (∃ c, heap (semidefinite_relaxation (solve_optimal eye3) sqrt_table
                0 (q 1) None false ∅ (State [line_edm] [])).2 !! 2
          = Some c ∧ get c 3 3 = zero) ∧
  f64.get (f64.impose_structure 2 f64.guess) 1 1 = PrimFloat.zero ∧
  f64.get (f64.kappa 2 f64.gram2) 1 1 = PrimFloat.zero.
Proof.
  destruct C2_zero_diagonal as (Hopt & Hra & Hsdr & Hfs & Hfk).
  split; [|split; [|split; [|split]]].
  - apply (Hopt (factors eye2 diag_edm eye2) 0 diag_edm
             2 500 (q 0) false (State [diag_edm] []) 1 _ 1).
    + done.
    + apply injective_projections; [by vm_compute | done].
    + cbn. lia.
  - apply (Hra lra_exact norm_unused 0 sym_edm 2 1 1 false None
             (State [sym_edm] []) 3 [] _ 1).
    + split; [done | by repeat constructor].
    + done.
    + lia.
    + apply injective_projections; [by vm_compute | done].
    + lia.
  - set (run := semidefinite_relaxation (solve_optimal eye3) sqrt_table
                  0 (q 1) None false ∅ (State [line_edm] [])).
    assert (∃ obj opts, trace run.2
              = [SolveCall obj opts (solve_optimal eye3 obj opts)])
      as (obj & opts & Htr).
    { vm_compute. by eexists _, _. }
    assert (∃ x, get (gram_best (centering_basis sqrt_table 4) eye3) 3 3
                 = Num x ∧ in_range (sadd (Num x) (Num x))) as (x & Hx & Hr).
    { eexists. split; [by vm_compute|]. split; by vm_compute. }
    apply (Hsdr (solve_optimal eye3) sqrt_table 0 line_edm 4 4 (q 1) None
             false ∅ (State [line_edm] []) 2 run.2 (trace run.2) obj opts
             (SolveResult zero "optimal" (Some eye3)) eye3 3 x).
    + split; [done | by repeat constructor].
    + done.
    + apply injective_projections; [by vm_compute | done].
    + done.
    + rewrite Htr. apply list_elem_of_here.
    + done.
    + exact Hx.
    + exact Hr.
  - apply (Hfs 2 f64.guess 1). lia.
  - apply (Hfk 2 f64.gram2 1); [lia | by vm_compute | by vm_compute].
Defined.

(** ** optspace does not symmetrize *)

(** C8, as stated, fails: when the factors reproduce the two different
    measurements 4 and 2 of [unbalanced_edm], so does the returned array,
    which is not its transpose. *)
Lemma C8_counterexample :
  let run := optspace (factors eye2 unbalanced_edm eye2)
               0 2 500 (q 0) false (State [unbalanced_edm] []) in
  run.1 = inr 1 ∧
  ∃ c, heap run.2 !! 1 = Some c ∧
       get c 0 1 = q 4 ∧ get c 1 0 = q 2 ∧ c ≠ transpose c.
Proof.
  cbv zeta. split; [compute_done|].
  exists unbalanced_edm. repeat split; compute_done.
Qed.

(** C8, amended: [optspace] rebuilds [X.dot(S.dot(Y.T))] and sets the first
    N entries of its diagonal to zero, nothing else: every other entry of
    the returned array is the entry of the product, so the result is
    symmetric only where the product is. *)
Theorem C8_optspace_reassembles
    opt_space (edm_missing : loc) (em : matrix) rank niter tol print_out
    (s : state) (l : loc) (s' : state) :
  heap s !! edm_missing = Some em →
  optspace opt_space edm_missing rank niter tol print_out s = (inr l, s') →
  ∃ X S_ Y c,
    opt_space em rank niter tol print_out = inr (X, S_, Y) ∧
    heap s' !! l = Some c ∧
    let P := matmul X (matmul S_ (transpose Y)) in
    ∀ i j, i < nrows P → j < ncols P →
      get c i j = if decide (i = j ∧ i < nrows em) then zero else get P i j.
Proof.
  intros Hl Hrun.
  destruct (optspace_inv _ _ _ _ _ _ _ _ _ Hrun)
    as (X & S_ & Y & Hos & _ & _ & -> & ->).
  rewrite Hl in Hos. cbn [default from_option id] in Hos.
  exists X, S_, Y. eexists. split; [done|]. split; [apply lookup_alloc|].
  intros P i j Hi Hj. rewrite Hl. cbn [default from_option id].
  by apply get_zero_diag.
Qed.

Lemma C8_optspace_reassembles_witness :
  ∃ X S_ Y c,
    factors eye2 sym_edm eye2 sym_edm 2 500 (q 0) false = inr (X, S_, Y) ∧
    heap (optspace (factors eye2 sym_edm eye2)
            0 2 500 (q 0) false (State [sym_edm] [])).2 !! 1 = Some c ∧
    let P := matmul X (matmul S_ (transpose Y)) in
    ∀ i j, i < nrows P → j < ncols P →
      get c i j = if decide (i = j ∧ i < nrows sym_edm) then zero
                  else get P i j.
Proof.
  apply (C8_optspace_reassembles (factors eye2 sym_edm eye2) 0 sym_edm
           2 500 (q 0) false (State [sym_edm] []) 1 _).
  - done.
  - apply injective_projections; [by vm_compute | done].
Defined.

Section optspace_frame.

Variable opt_space :
  matrix → nat → nat → scalar → bool → exn + (matrix * matrix * matrix).

(** However [optspace] ends, it has only added arrays to the heap. *)
Lemma optspace_frame edm_missing rank niter tol print_out s res s' :
  optspace opt_space edm_missing rank niter tol print_out s = (res, s') →
  ∃ new, heap s' = heap s ++ new.
Proof.
  unfold optspace, call_opt_space, set_diag_zero. mrun.
  destruct (opt_space _ _ _ _ _) as [e|[[X S_] Y]]; mrun;
    [intros [= <- <-]; by exists []; rewrite app_nil_r|].
  destruct (np_dot S_ _); mrun;
    [|intros [= <- <-]; by exists []; rewrite app_nil_r].
  destruct (np_dot X _); mrun;
    [|intros [= <- <-]; by exists []; rewrite app_nil_r].
  rewrite lookup_alloc. mrun.
  destruct (decide (_ ∧ _)); mrun; intros [= <- <-]; cbn [heap];
    rewrite ?insert_alloc; by eexists.
Qed.

End optspace_frame.

(** ** Caller-supplied arrays *)

(** The value of [edm_missing] is the same after a call of
    [semidefinite_relaxation], however it ends. *)
Lemma sdr_keeps_edm_missing cvx_solve np_sqrt edm_missing em n k
    lamda W print_out kwargs s res s' :
  is_shape n k em →
  heap s !! edm_missing = Some em →
  semidefinite_relaxation cvx_solve np_sqrt
    edm_missing lamda W print_out kwargs s = (res, s') →
  heap s' !! edm_missing = Some em.
Proof.
  intros Hem Hl Hrun.
  by destruct (sdr_inv cvx_solve np_sqrt _ _ _ _ Hem _ _ _ _ _ _ _ Hl Hrun).
Qed.

(** The arrays the caller holds keep their values through
    [rank_alternation] and [optspace], however the call ends. *)
Lemma rank_alternation_keeps low_rank_approximation np_linalg_norm
    edm_missing rank niter print_out edm_true s res s' (l : loc) (m : matrix) :
  rank_alternation low_rank_approximation np_linalg_norm
    edm_missing rank niter print_out edm_true s = (res, s') →
  heap s !! l = Some m → heap s' !! l = Some m.
Proof.
  intros Hrun Hl.
  destruct (rank_alternation_frame _ _ _ _ _ _ _ _ _ _ Hrun) as (_ & new & ->).
  by apply lookup_app_l_Some.
Qed.

Lemma optspace_keeps opt_space edm_missing rank niter tol print_out
    s res s' (l : loc) (m : matrix) :
  optspace opt_space edm_missing rank niter tol print_out s = (res, s') →
  heap s !! l = Some m → heap s' !! l = Some m.
Proof.
  intros Hrun Hl. destruct (optspace_frame _ _ _ _ _ _ _ _ _ Hrun) as (new & ->).
  by apply lookup_app_l_Some.
Qed.

(** C5 fails on the weights: the masked assignment of line 87 writes into
    the caller's array.  A call with the all-ones weights [ones2] leaves
    zeros in them where [sym_edm] has no measurement. *)
Lemma C5_weights_overwritten :
  let s := State [sym_edm; ones2] [] in
  let run := semidefinite_relaxation solve_infeasible sqrt_table
               0 (q 1) (Some 1) false ∅ s in
  heap s !! 1 = Some ones2 ∧
  run.1 = inr 0 ∧
  ∃ w, heap run.2 !! 1 = Some w ∧ w ≠ ones2 ∧
       get w 0 0 = q 0 ∧ get w 0 1 = q 1 ∧ get w 1 0 = q 1 ∧ get w 1 1 = q 0.
Proof.
  cbv zeta. split; [done|]. split; [compute_done|].
  eexists. split; [by vm_compute|]. repeat split; compute_done.
Qed.

(** ** The claims on concrete inputs *)

Lemma C3_sdr_fallback_returns_input_witness :
  (semidefinite_relaxation solve_infeasible sqrt_table
     0 (q 1) None false ∅ (State [sym_edm] [])).1 = inr 0 ∧
  heap (semidefinite_relaxation solve_infeasible sqrt_table
          0 (q 1) None false ∅ (State [sym_edm] [])).2 !! 0 = Some sym_edm.
Proof.
  set (run := semidefinite_relaxation solve_infeasible sqrt_table
                0 (q 1) None false ∅ (State [sym_edm] [])).
  assert (∃ obj opts,
            trace run.2 = [SolveCall obj opts (solve_infeasible obj opts)])
    as (obj & opts & Htr).
  { vm_compute. by eexists _, _. }
  apply (C3_sdr_fallback_returns_input solve_infeasible sqrt_table
           0 sym_edm 2 2 (q 1) None false ∅ (State [sym_edm] [])
           run.1 run.2 (trace run.2) obj opts
           (SolveResult NaN "infeasible" None)).
  - split; [done | by repeat constructor].
  - done.
  - by apply injective_projections.
  - done.
  - rewrite Htr. apply list_elem_of_here.
  - done.
Defined.

Lemma C10_sdr_method_unbound_witness :
  ∃ s', semidefinite_relaxation (solve_optimal eye3) sqrt_table
          0 (q 1) None false {[ "method"%string := "median"%string ]}
          (State [line_edm] [])
          = (inl (UnboundLocalError "obj"), s') ∧
        trace s' = [].
Proof.
  apply (C10_sdr_method_unbound (solve_optimal eye3) sqrt_table
           0 line_edm 4 4 (q 1) None false
           {[ "method"%string := "median"%string ]} "median"
           (State [line_edm] [])).
  - split; [done | by repeat constructor].
  - lia.
  - done.
  - done.
  - done.
  - done.
  - done.
Defined.

(** C6, as stated, fails: on the all-zero array [zeros2] the routine
    raises nothing of its own.  With [niter = 0] the NaN-filled copy is
    returned; with a low-rank routine that passes its argument through, two
    iterations return an array whose off-diagonal entries are NaN; with one
    that gives up on NaN, the error is that routine's, raised after it was
    called with the NaN-filled array. *)
Lemma C6_counterexample :
  let ra0 := rank_alternation lra_exact norm_unused 0 1 0 false None
               (State [zeros2] []) in
  let ra2 := rank_alternation lra_exact norm_unused 0 1 2 false None
               (State [zeros2] []) in
  let ra_strict := rank_alternation lra_strict norm_unused 0 1 2 false None
                     (State [zeros2] []) in
  (ra0.1 = inr (1, []) ∧ heap ra0.2 !! 1 = Some nans2) ∧
  (ra2.1 = inr (5, []) ∧
   get (default [] (heap ra2.2 !! 5)) 0 1 = NaN ∧
   trace ra2.2 !! 0 = Some (LowRankCall nans2 1)) ∧
  (ra_strict.1 = inl (ExternalError "LinAlgError") ∧
   trace ra_strict.2 = [LowRankCall nans2 1]).
Proof. cbv zeta. repeat split; compute_done. Qed.

Lemma C6_rank_alternation_no_observation_witness :
  ∃ nan,
    Forall (Forall (λ x, x = NaN)) nan ∧ length nan = length zeros2 ∧
    rank_alternation lra_exact norm_unused 0 1 0 false None
      (State [zeros2] [])
      = (inr (1, []), State ([zeros2] ++ [nan]) []) ∧
    (∀ k res s',
       rank_alternation lra_exact norm_unused 0 1 (S k) false None
         (State [zeros2] []) = (res, s') →
       ∃ evs, trace s' = [] ++ LowRankCall nan 1 :: evs) ∧
    (∀ k e,
       lra_exact nan 1 = inl e →
       rank_alternation lra_exact norm_unused 0 1 (S k) false None
         (State [zeros2] [])
         = (inl e, State ([zeros2] ++ [nan]) ([] ++ [LowRankCall nan 1]))) ∧
    (∀ k e s',
       rank_alternation lra_exact norm_unused 0 1 k false None
         (State [zeros2] []) = (inl e, s') →
       e = IndexError ∨ e = ValueError ∨ ∃ a, lra_exact a 1 = inl e).
Proof.
  apply (C6_rank_alternation_no_observation lra_exact norm_unused
           0 zeros2 1 false None (State [zeros2] [])).
  - done.
  - compute_done.
Defined.

(** C7, as stated, fails: no InvalidInput is raised.  With rank 2 on the
    2 by 2 input [sym_edm], a rank that is not below N, [rank_alternation]
    returns as with any other rank; and the 1 by 2 input [row_edm] comes
    back as a 2 by 2 array, the sum of line 61 being broadcast (the
    low-rank routine answering with an array of the shape of its
    argument). *)
Lemma C7_counterexample :
  let full_rank := rank_alternation lra_exact norm_unused 0 2 1 false None
                     (State [sym_edm] []) in
  let not_square := rank_alternation lra_exact norm_unused 0 1 1 false None
                      (State [row_edm] []) in
  (nrows sym_edm = 2 ∧
   full_rank.1 = inr (3, []) ∧ heap full_rank.2 !! 3 = Some sym_edm) ∧
  (nrows row_edm = 1 ∧ ncols row_edm = 2 ∧
   not_square.1 = inr (3, []) ∧
   heap not_square.2 !! 3 = Some [[q 0; q 2]; [q 2; q 4]]).
Proof. cbv zeta. repeat split; compute_done. Qed.

Lemma C7_inputs_not_validated_witness :
  semidefinite_relaxation solve_infeasible sqrt_table
    0 (q 1) (Some 1) false ∅ (State [sym_edm; eye3] [])
    = (inl IndexError, State [sym_edm; eye3] []) ∧
  (∃ s', semidefinite_relaxation (solve_optimal eye2) sqrt_table
           0 (q 1) None false ∅ (State [wide_edm] [])
           = (inl ValueError, s') ∧ trace s' = []) ∧
  let run := rank_alternation lra_exact norm_unused 0 2 3 false (Some 0)
               (State [sym_edm] []) in
  (∃ l errs, run.1 = inr (l, errs)) ∨
  (∃ e a, is_shape 2 2 a ∧ run.1 = inl e ∧ lra_exact a 2 = inl e).
Proof.
  destruct C7_inputs_not_validated as (Hw & Hsq & Hrank).
  split; [|split].
  - apply (Hw solve_infeasible sqrt_table 0 1 sym_edm 2 2 (q 1) false ∅
             (State [sym_edm; eye3] [])).
    + split; [done | by repeat constructor].
    + done.
    + done.
  - apply (Hsq (solve_optimal eye2) sqrt_table 0 wide_edm 2 3 (q 1) None
             false ∅ (State [wide_edm] [])).
    + split; [done | by repeat constructor].
    + lia.
    + lia.
    + done.
    + done.
    + by left.
  - intros run.
    apply (Hrank lra_exact norm_unused 0 sym_edm 2 2 3 false (Some 0)
             (State [sym_edm] []) run.1 run.2).
    + split; [done | by repeat constructor].
    + done.
    + intros t [= <-]. exists sym_edm.
      split; [done|]. split; [done | by repeat constructor].
    + intros a r Ha [= <-].
      apply (same_shape_of_shape 2 2); [done|].
      split; [done | by repeat constructor].
    + apply surjective_pairing.
Defined.

(** ** More on rank alternation *)

Lemma run_pair {A} (c : M A) (s : state) (a : A) :
  (c s).1 = inr a → c s = (inr a, (c s).2).
Proof. destruct (c s) as [r s']. cbn. by intros ->. Qed.

Lemma slt0_half_sum a b :
  slt0 a = false → slt0 b = false → slt0 (smul (Num half) (sadd a b)) = false.
Proof.
  destruct a as [x|], b as [y|]; simpl; try done.
  intros Hx%bool_decide_eq_false Hy%bool_decide_eq_false.
  apply bool_decide_eq_false. apply Qcle_not_lt.
  apply Qcnot_lt_le in Hx, Hy.
  replace 0%Qc with (half * 0)%Qc by ring.
  apply Qcmult_le_mono_nonneg_l; [done|].
  by apply Qcplus_nonneg_nonneg.
Qed.

Lemma clipped_nonneg n c i j :
  is_shape n n c → i < n → j < n → slt0 (get (clipped n c) i j) = false.
Proof.
  intros Hc Hi Hj. rewrite get_clipped by done.
  destruct (decide (i = j)); [done|].
  by destruct (slt0 (get c i j)) eqn:Hneg.
Qed.

Lemma averaged_nonneg n c i j :
  is_shape n n c → i < n → j < n → slt0 (get (averaged n c) i j) = false.
Proof.
  intros Hc Hi Hj. rewrite get_averaged by done.
  apply slt0_half_sum; by apply clipped_nonneg.
Qed.

Lemma averaged_diag n c i :
  is_shape n n c → i < n → get (averaged n c) i i = zero.
Proof.
  intros Hc Hi.
  rewrite get_averaged, smul_half_double, get_clipped by done.
  by rewrite decide_True.
Qed.

Lemma sadd_comm a b : sadd a b = sadd b a.
Proof. destruct a, b; simpl; try done. by rewrite Qcplus_comm. Qed.

Lemma averaged_transpose n c :
  is_shape n n c → transpose (averaged n c) = averaged n c.
Proof.
  intros Hc. pose proof (averaged_shape n c Hc) as Ha.
  destruct (decide (n = 0)) as [->|Hn].
  { by rewrite (shape_zero _ _ Ha). }
  apply (matrix_ext n n); [apply transpose_shape; [done | lia] | done |].
  intros i j Hi Hj.
  rewrite (get_transpose n n), !get_averaged by done.
  by rewrite sadd_comm.
Qed.

(** X1: with at least one iteration on a square input, the array that
    [rank_alternation] returns is square of the same size and equal to its
    transpose. *)
Theorem X1_rank_alternation_symmetric
    low_rank_approximation np_linalg_norm
    (edm_missing : loc) (em : matrix) (n rank niter : nat) print_out edm_true
    (s : state) (l : loc) errs (s' : state) :
  is_shape n n em →
  heap s !! edm_missing = Some em →
  1 ≤ niter →
  rank_alternation low_rank_approximation np_linalg_norm
    edm_missing rank niter print_out edm_true s = (inr (l, errs), s') →
  ∃ c, heap s' !! l = Some c ∧ is_shape n n c ∧ transpose c = c.
Proof.
  intros Hem Hl Hn Hrun.
  destruct (rank_alternation_inv _ _ _ _ _ _ _ Hem _ _ _ _ _ _ Hl Hn Hrun)
    as (r & Hss & _ & Hc).
  pose proof (impose_known_shape _ _ _ Hem Hss) as Hk.
  eexists. split; [exact Hc|]. split.
  - by apply averaged_shape.
  - by apply averaged_transpose.
Qed.

Lemma X1_rank_alternation_symmetric_witness :
  ∃ c, heap (rank_alternation lra_exact norm_unused 0 3 2 false None
               (State [asym_edm] [])).2 !! 5 = Some c
       ∧ is_shape 3 3 c ∧ transpose c = c.
Proof.
  apply (X1_rank_alternation_symmetric lra_exact norm_unused 0 asym_edm 3 3 2
           false None (State [asym_edm] []) 5 [] _).
  - split; [done | by repeat constructor].
  - done.
  - lia.
  - apply run_pair. by vm_compute.
Defined.

(** X2: with at least one iteration on a square input, the array that
    [rank_alternation] returns has no negative entry. *)
Theorem X2_rank_alternation_nonnegative
    low_rank_approximation np_linalg_norm
    (edm_missing : loc) (em : matrix) (n rank niter : nat) print_out edm_true
    (s : state) (l : loc) errs (s' : state) :
  is_shape n n em →
  heap s !! edm_missing = Some em →
  1 ≤ niter →
  rank_alternation low_rank_approximation np_linalg_norm
    edm_missing rank niter print_out edm_true s = (inr (l, errs), s') →
  ∃ c, heap s' !! l = Some c ∧
       ∀ i j, i < n → j < n → slt0 (get c i j) = false.
Proof.
  intros Hem Hl Hn Hrun.
  destruct (rank_alternation_inv _ _ _ _ _ _ _ Hem _ _ _ _ _ _ Hl Hn Hrun)
    as (r & Hss & _ & Hc).
  pose proof (impose_known_shape _ _ _ Hem Hss) as Hk.
  eexists. split; [exact Hc|]. intros i j Hi Hj. by apply averaged_nonneg.
Qed.

Lemma X2_rank_alternation_nonnegative_witness :
  ∃ c, heap (rank_alternation lra_exact norm_unused 0 3 2 false None
               (State [negative_edm] [])).2 !! 5 = Some c ∧
       ∀ i j, i < 3 → j < 3 → slt0 (get c i j) = false.
Proof.
  apply (X2_rank_alternation_nonnegative lra_exact norm_unused 0 negative_edm
           3 3 2 false None (State [negative_edm] []) 5 [] _).
  - split; [done | by repeat constructor].
  - done.
  - lia.
  - apply run_pair. by vm_compute.
Defined.

Section rank_alternation_counts.

Variable low_rank_approximation : matrix → nat → exn + matrix.
Variable np_linalg_norm : matrix → scalar.
Variables (edm_missing : loc) (rank N : nat) (edm_true : option loc).

(** A pass that completes has recorded one error if a ground truth is
    given, and none otherwise. *)
Lemma rank_step_errs ec errs s st' s' :
  rank_step low_rank_approximation np_linalg_norm
    edm_missing rank N edm_true (ec, errs) s = (inr st', s') →
  length st'.2 = length errs + tracked edm_true.
Proof.
  unfold rank_step, call_low_rank, impose_structure, set_diag_zero, tracked.
  mrun.
  destruct (low_rank_approximation _ rank) as [e|r]; mrun; [done|].
  rewrite !lookup_alloc. mrun.
  destruct (same_shape r _); mrun; [|done].
  repeat progress (rewrite ?(insert_alloc (heap s)), ?lookup_alloc; mrun).
  destruct (decide (_ ∧ _)); mrun; [|done].
  repeat progress (rewrite ?(insert_alloc (heap s)), ?lookup_alloc; mrun).
  destruct (np_add _ _); mrun; [|done].
  destruct edm_true as [t|]; mrun.
  - destruct (np_sub _ _); mrun; [|done]. intros [= <- <-]. cbn.
    by rewrite length_app.
  - intros [= <- <-]. cbn. lia.
Qed.

Lemma rank_loop_counts niter : ∀ st s st' s',
  rank_loop low_rank_approximation np_linalg_norm
    edm_missing rank N edm_true niter st s = (inr st', s') →
  length st'.2 = length st.2 + niter * tracked edm_true ∧
  ∃ evs, trace s' = trace s ++ evs ∧ length evs = niter ∧
         Forall (λ ev, ∃ a, ev = LowRankCall a rank) evs.
Proof.
  induction niter as [|k IH]; intros [ec errs] s st' s'; cbn [rank_loop].
  - rewrite run_ret. intros [= <- <-]. split; [cbn; lia|].
    exists []. by rewrite app_nil_r.
  - rewrite run_bind.
    destruct (rank_step _ _ _ _ _ _ _ s) as [[e|[ec1 errs1]] s1] eqn:Hstep;
      [done|].
    pose proof (rank_step_errs _ _ _ _ _ Hstep) as Herrs.
    destruct (rank_step_frame _ _ _ _ _ _ _ _ _ _ _ Hstep) as (Htr & _).
    intros Hloop. destruct (IH _ _ _ _ Hloop) as (Hlen & evs & Htr' & Hn & Hall).
    cbn [fst snd] in *. split; [lia|].
    eexists (_ :: evs). rewrite Htr', Htr, <- app_assoc. cbn [app].
    split; [done|]. split; [cbn; lia|]. constructor; [by eauto | done].
Qed.

End rank_alternation_counts.

(** X3: when [rank_alternation] returns, the list of errors has one entry
    per iteration if a ground truth [edm_true] was given, and is empty
    otherwise. *)
Theorem X3_rank_alternation_error_trace
    low_rank_approximation np_linalg_norm
    (edm_missing : loc) (rank niter : nat) print_out edm_true
    (s : state) (l : loc) errs (s' : state) :
  rank_alternation low_rank_approximation np_linalg_norm
    edm_missing rank niter print_out edm_true s = (inr (l, errs), s') →
  length errs = if edm_true is Some _ then niter else 0.
Proof.
  unfold rank_alternation. mrun. rewrite lookup_alloc, insert_alloc. mrun.
  intros Hloop.
  destruct (rank_loop_counts _ _ _ _ _ _ _ _ _ _ _ Hloop) as (Hlen & _).
  cbn [fst snd length] in Hlen. rewrite Hlen. unfold tracked.
  destruct edm_true; lia.
Qed.

Lemma X3_rank_alternation_error_trace_witness :
  (rank_alternation lra_exact norm_unused 0 2 3 false (Some 1)
     (State [sym_edm; sym_edm] [])).1 = inr (8, [zero; zero; zero]) ∧
  length [zero; zero; zero] = 3.
Proof.
  split; [by vm_compute|].
  apply (X3_rank_alternation_error_trace lra_exact norm_unused
           0 2 3 false (Some 1) (State [sym_edm; sym_edm] []) 8
           [zero; zero; zero]
           (rank_alternation lra_exact norm_unused 0 2 3 false (Some 1)
              (State [sym_edm; sym_edm] [])).2).
  apply run_pair. by vm_compute.
Defined.

(** X4: when [rank_alternation] returns, it has called the low-rank
    routine once per iteration, each time with the rank it was given, and
    has called nothing else. *)
Theorem X4_rank_alternation_low_rank_calls
    low_rank_approximation np_linalg_norm
    (edm_missing : loc) (rank niter : nat) print_out edm_true
    (s : state) (l : loc) errs (s' : state) :
  rank_alternation low_rank_approximation np_linalg_norm
    edm_missing rank niter print_out edm_true s = (inr (l, errs), s') →
  ∃ evs, trace s' = trace s ++ evs ∧ length evs = niter ∧
         Forall (λ ev, ∃ a, ev = LowRankCall a rank) evs.
Proof.
  unfold rank_alternation. mrun. rewrite lookup_alloc, insert_alloc. mrun.
  intros Hloop.
  by destruct (rank_loop_counts _ _ _ _ _ _ _ _ _ _ _ Hloop) as (_ & Hevs).
Qed.

Lemma X4_rank_alternation_low_rank_calls_witness :
  ∃ evs, trace (rank_alternation lra_exact norm_unused 0 2 3 false None
                  (State [sym_edm] [])).2 = [] ++ evs ∧
         length evs = 3 ∧
         Forall (λ ev, ∃ a, ev = LowRankCall a 2) evs.
Proof.
  apply (X4_rank_alternation_low_rank_calls lra_exact norm_unused
           0 2 3 false None (State [sym_edm] []) 7 [] _).
  apply run_pair. by vm_compute.
Defined.

(** X5: however a call of [rank_alternation] ends, by a return or by an
    exception, every array that existed before the call holds the value it
    had: the routine writes into its own copy only. *)
Theorem X5_rank_alternation_frame
    low_rank_approximation np_linalg_norm
    (edm_missing : loc) (rank niter : nat) print_out edm_true
    (s : state) res (s' : state) (l : loc) (m : matrix) :
  rank_alternation low_rank_approximation np_linalg_norm
    edm_missing rank niter print_out edm_true s = (res, s') →
  heap s !! l = Some m →
  heap s' !! l = Some m.
Proof.
  intros Hrun Hl.
  destruct (rank_alternation_frame _ _ _ _ _ _ _ _ _ _ Hrun) as (_ & new & ->).
  by apply lookup_app_l_Some.
Qed.

Lemma X5_rank_alternation_frame_witness :
  heap (rank_alternation lra_strict norm_unused 0 1 2 false None
          (State [zeros2] [])).2 !! 0 = Some zeros2.
Proof.
  apply (X5_rank_alternation_frame lra_strict norm_unused 0 1 2 false None
           (State [zeros2] [])
           (rank_alternation lra_strict norm_unused 0 1 2 false None
              (State [zeros2] [])).1 _ 0 zeros2).
  - apply surjective_pairing.
  - done.
Defined.

(** ** More on the semidefinite relaxation *)

Section sdr_call.

Variable cvx_solve : objective → gmap string string → exn + solve_result.
Variable np_sqrt : scalar → scalar.

Variables (edm_missing : loc) (em : matrix) (n k : nat).
Hypothesis Hem : is_shape n k em.

(** What the solver was called with, and what then came of the call. *)
Lemma sdr_call_inv lamda W print_out kwargs s res s' evs obj opts out :
  heap s !! edm_missing = Some em →
  semidefinite_relaxation cvx_solve np_sqrt
    edm_missing lamda W print_out kwargs s = (res, s') →
  trace s' = trace s ++ evs →
  SolveCall obj opts out ∈ evs →
  opts = delete "method"%string kwargs ∪ {[ "solver"%string := "CVXOPT"%string ]} ∧
  out = cvx_solve obj opts ∧
  (∃ wv, sdr_objective (default "maximize"%string (kwargs !! "method"%string))
           lamda n (centering_basis np_sqrt n) em wv = inr obj) ∧
  (∀ e, out = inl e → res = inl e) ∧
  (print_out = false → evs = [SolveCall obj opts out]).
Proof.
  intros Hl. unfold semidefinite_relaxation. cbv zeta. rewrite run_bind.
  destruct (sdr_weights edm_missing W s) as [[e|wl] s1] eqn:Hw;
    destruct (sdr_weights_inv _ _ _ _ Hem _ _ _ _ Hl Hw) as (Htr & Hl1 & Hres).
  { intros [= <- <-] Htr'. destruct Hres as (-> & -> & _).
    rewrite <- (app_nil_r (trace s)) in Htr' at 1.
    apply app_inv_head in Htr' as <-. by intros ?%elem_of_nil. }
  clear Hres. mrun. rewrite Hl1. mrun. rewrite (shape_nrows _ _ _ Hem).
  destruct (decide (n = 0)); mrun.
  { intros [= <- <-] Htr'. rewrite Htr in Htr'.
    rewrite <- (app_nil_r (trace s)) in Htr' at 1.
    apply app_inv_head in Htr' as <-. by intros ?%elem_of_nil. }
  destruct (sdr_objective _ _ _ _ _ _) as [e|obj0] eqn:Hobj; mrun.
  { intros [= <- <-] Htr'. rewrite Htr in Htr'.
    rewrite <- (app_nil_r (trace s)) in Htr' at 1.
    apply app_inv_head in Htr' as <-. by intros ?%elem_of_nil. }
  unfold call_solve, sdr_result. mrun.
  destruct (cvx_solve obj0 _) as [e|r] eqn:Hs; mrun;
    [|destruct (H_value r) as [Hv|], print_out; cbv zeta; cbn [andb]; mrun;
      try (destruct (has_nan _); mrun;
           [|destruct (decide (n - 1 = 1)); mrun])];
    intros [= <- <-] Htr'; cbn [trace] in Htr';
    rewrite Htr, <- ?app_assoc in Htr'; apply app_inv_head in Htr' as <-;
    cbn [app]; rewrite ?elem_of_cons, elem_of_nil;
    intros Hev; repeat (destruct Hev as [Hev|Hev]); try done;
    injection Hev as -> -> ->; rewrite Hs;
    (split; [done|]); (split; [done|]); (split; [by eauto|]);
    (split; [by intros ? [= <-] | done]).
Qed.

End sdr_call.

(** X6: the options the solver receives are the caller's keyword
    arguments without ["method"], over the default [{'solver': 'CVXOPT'}]:
    ["method"] is never passed on, a caller's ["solver"] replaces the
    default, and every other keyword is passed as it is. *)
Theorem X6_sdr_solver_options
    cvx_solve np_sqrt (edm_missing : loc) (em : matrix) (n k : nat)
    lamda W print_out (kwargs : gmap string string)
    (s : state) res (s' : state) evs obj (opts : gmap string string) out :
  is_shape n k em →
  heap s !! edm_missing = Some em →
  semidefinite_relaxation cvx_solve np_sqrt
    edm_missing lamda W print_out kwargs s = (res, s') →
  trace s' = trace s ++ evs →
  SolveCall obj opts out ∈ evs →
  opts !! "method"%string = None ∧
  opts !! "solver"%string
    = Some (default "CVXOPT"%string (kwargs !! "solver"%string)) ∧
  ∀ key : string, key ≠ "method"%string → key ≠ "solver"%string →
    opts !! key = kwargs !! key.
Proof.
  intros Hem Hl Hrun Htr Hev.
  destruct (sdr_call_inv cvx_solve np_sqrt _ _ _ _ Hem _ _ _ _ _ _ _ _ _ _ _
              Hl Hrun Htr Hev) as (-> & _).
  split; [|split].
  - rewrite lookup_union, lookup_delete_eq, lookup_singleton_ne; done.
  - rewrite lookup_union, lookup_delete_ne, lookup_singleton_eq by done.
    by destruct (kwargs !! "solver"%string).
  - intros key Hm Hs.
    rewrite lookup_union, lookup_delete_ne, lookup_singleton_ne by done.
    by destruct (kwargs !! key).
Qed.

(** X7: the objective the solver receives follows the mode: without a
    ["method"] keyword, or with ['maximize'], it maximizes the trace of [H]
    minus [lamda] times the fit; with ['minimize'] it minimizes the trace
    plus [lamda] times the fit. *)
Theorem X7_sdr_objective_mode
    cvx_solve np_sqrt (edm_missing : loc) (em : matrix) (n k : nat)
    lamda W print_out (kwargs : gmap string string)
    (s : state) res (s' : state) evs obj opts out :
  is_shape n k em →
  heap s !! edm_missing = Some em →
  semidefinite_relaxation cvx_solve np_sqrt
    edm_missing lamda W print_out kwargs s = (res, s') →
  trace s' = trace s ++ evs →
  SolveCall obj opts out ∈ evs →
  ∃ fit,
    if decide (kwargs !! "method"%string = Some "minimize"%string)
    then obj = Minimize (Add (Trace (Semidef (n - 1))) (Scale lamda fit))
    else obj = Maximize (Sub (Trace (Semidef (n - 1))) (Scale lamda fit)).
Proof.
  intros Hem Hl Hrun Htr Hev.
  destruct (sdr_call_inv cvx_solve np_sqrt _ _ _ _ Hem _ _ _ _ _ _ _ _ _ _ _
              Hl Hrun Htr Hev) as (_ & _ & (wv & Hobj) & _).
  revert Hobj. unfold sdr_objective. cbv zeta.
  destruct (decide (ncols em = n ∨ n = 1)); last first.
  { by repeat case_decide. }
  destruct (kwargs !! "method"%string) as [m|]; cbn [default from_option id].
  - destruct (decide (m = "maximize"%string)) as [->|Hmax].
    + intros [= <-]. eexists. by rewrite decide_False.
    + destruct (decide (m = "minimize"%string)) as [->|Hmin]; [|done].
      intros [= <-]. eexists. by rewrite decide_True.
  - rewrite decide_True by done. intros [= <-]. eexists.
    by rewrite decide_False.
Qed.

(** X8: an exception of the solver reaches the caller unchanged, and the
    input array still holds its value. *)
Theorem X8_sdr_solver_exception
    cvx_solve np_sqrt (edm_missing : loc) (em : matrix) (n k : nat)
    lamda W print_out (kwargs : gmap string string)
    (s : state) res (s' : state) evs obj opts e :
  is_shape n k em →
  heap s !! edm_missing = Some em →
  semidefinite_relaxation cvx_solve np_sqrt
    edm_missing lamda W print_out kwargs s = (res, s') →
  trace s' = trace s ++ evs →
  SolveCall obj opts (inl e) ∈ evs →
  res = inl e ∧ heap s' !! edm_missing = Some em.
Proof.
  intros Hem Hl Hrun Htr Hev.
  destruct (sdr_call_inv cvx_solve np_sqrt _ _ _ _ Hem _ _ _ _ _ _ _ _ _ _ _
              Hl Hrun Htr Hev) as (_ & _ & _ & Hres & _).
  split; [by apply Hres|]. by eapply sdr_keeps_edm_missing.
Qed.

(** X9: a call invokes the solver at most once, and only the diagnostic
    output of [print_out] follows the invocation. *)
Theorem X9_sdr_single_solve
    cvx_solve np_sqrt (edm_missing : loc) (em : matrix) (n k : nat)
    lamda W print_out (kwargs : gmap string string)
    (s : state) res (s' : state) :
  is_shape n k em →
  heap s !! edm_missing = Some em →
  semidefinite_relaxation cvx_solve np_sqrt
    edm_missing lamda W print_out kwargs s = (res, s') →
  trace s' = trace s ∨
  ∃ obj opts prints,
    trace s' = trace s ++ SolveCall obj opts (cvx_solve obj opts) :: prints ∧
    Forall (λ ev, ∃ label, ev = Print label) prints.
Proof.
  intros Hem Hl Hrun.
  destruct (sdr_inv cvx_solve np_sqrt _ _ _ _ Hem _ _ _ _ _ _ _ Hl Hrun)
    as (_ & [(Htr & _) | (obj & opts & prints & Htr & Hpr & _)]).
  - by left.
  - right. by exists obj, opts, prints.
Qed.

(** X11: however a call ends, the input array [edm_missing] holds the
    value it had before the call, also when the caller passes the same
    array as weights. *)
Theorem X11_sdr_keeps_edm_missing
    cvx_solve np_sqrt (edm_missing : loc) (em : matrix) (n k : nat)
    lamda W print_out (kwargs : gmap string string)
    (s : state) res (s' : state) :
  is_shape n k em →
  heap s !! edm_missing = Some em →
  semidefinite_relaxation cvx_solve np_sqrt
    edm_missing lamda W print_out kwargs s = (res, s') →
  heap s' !! edm_missing = Some em.
Proof.
  intros Hem Hl Hrun.
  by destruct (sdr_inv cvx_solve np_sqrt _ _ _ _ Hem _ _ _ _ _ _ _ Hl Hrun).
Qed.

Lemma X6_sdr_solver_options_witness :
  ∃ obj opts out,
    trace (semidefinite_relaxation solve_infeasible sqrt_table
             0 (q 1) None false some_kwargs (State [line_edm] [])).2
      = [] ++ [SolveCall obj opts out] ∧
    opts !! "method"%string = None ∧
    opts !! "solver"%string
      = Some (default "CVXOPT"%string (some_kwargs !! "solver"%string)) ∧
    ∀ key : string, key ≠ "method"%string → key ≠ "solver"%string →
      opts !! key = some_kwargs !! key.
Proof.
  set (run := semidefinite_relaxation solve_infeasible sqrt_table
                0 (q 1) None false some_kwargs (State [line_edm] [])).
  assert (∃ obj opts out, trace run.2 = [] ++ [SolveCall obj opts out])
    as (obj & opts & out & Htr).
  { vm_compute. by eexists _, _, _. }
  exists obj, opts, out. split; [done|].
  apply (X6_sdr_solver_options solve_infeasible sqrt_table 0 line_edm 4 4
           (q 1) None false some_kwargs (State [line_edm] []) run.1 run.2
           [SolveCall obj opts out] obj opts out).
  - split; [done | by repeat constructor].
  - done.
  - apply surjective_pairing.
  - done.
  - apply list_elem_of_here.
Defined.

Lemma X7_sdr_objective_mode_witness :
  ∃ obj opts out,
    trace (semidefinite_relaxation solve_infeasible sqrt_table
             0 (q 1) None false some_kwargs (State [line_edm] [])).2
      = [] ++ [SolveCall obj opts out] ∧
    ∃ fit,
      if decide (some_kwargs !! "method"%string = Some "minimize"%string)
      then obj = Minimize (Add (Trace (Semidef (4 - 1))) (Scale (q 1) fit))
      else obj = Maximize (Sub (Trace (Semidef (4 - 1))) (Scale (q 1) fit)).
Proof.
  set (run := semidefinite_relaxation solve_infeasible sqrt_table
                0 (q 1) None false some_kwargs (State [line_edm] [])).
  assert (∃ obj opts out, trace run.2 = [] ++ [SolveCall obj opts out])
    as (obj & opts & out & Htr).
  { vm_compute. by eexists _, _, _. }
  exists obj, opts, out. split; [done|].
  apply (X7_sdr_objective_mode solve_infeasible sqrt_table 0 line_edm 4 4
           (q 1) None false some_kwargs (State [line_edm] []) run.1 run.2
           [SolveCall obj opts out] obj opts out).
  - split; [done | by repeat constructor].
  - done.
  - apply surjective_pairing.
  - done.
  - apply list_elem_of_here.
Defined.

Lemma X8_sdr_solver_exception_witness :
  (semidefinite_relaxation solve_broken sqrt_table
     0 (q 1) None true ∅ (State [line_edm] [])).1
    = inl (ExternalError "SolverError") ∧
  heap (semidefinite_relaxation solve_broken sqrt_table
          0 (q 1) None true ∅ (State [line_edm] [])).2 !! 0 = Some line_edm.
Proof.
  set (run := semidefinite_relaxation solve_broken sqrt_table
                0 (q 1) None true ∅ (State [line_edm] [])).
  assert (∃ obj opts,
            trace run.2
              = [] ++ [SolveCall obj opts (inl (ExternalError "SolverError"))])
    as (obj & opts & Htr).
  { vm_compute. by eexists _, _. }
  apply (X8_sdr_solver_exception solve_broken sqrt_table 0 line_edm 4 4
           (q 1) None true ∅ (State [line_edm] []) run.1 run.2
           [SolveCall obj opts (inl (ExternalError "SolverError"))] obj opts).
  - split; [done | by repeat constructor].
  - done.
  - apply surjective_pairing.
  - done.
  - apply list_elem_of_here.
Defined.

Lemma X9_sdr_single_solve_witness :
  let run := semidefinite_relaxation (solve_optimal eye3) sqrt_table
               0 (q 1) None true ∅ (State [line_edm] []) in
  trace run.2 = [] ∨
  ∃ obj opts prints,
    trace run.2
      = [] ++ SolveCall obj opts (solve_optimal eye3 obj opts) :: prints ∧
    Forall (λ ev, ∃ label, ev = Print label) prints.
Proof.
  intros run.
  apply (X9_sdr_single_solve (solve_optimal eye3) sqrt_table 0 line_edm 4 4
           (q 1) None true ∅ (State [line_edm] []) run.1 run.2).
  - split; [done | by repeat constructor].
  - done.
  - apply surjective_pairing.
Defined.

Lemma X11_sdr_keeps_edm_missing_witness :
  heap (semidefinite_relaxation solve_infeasible sqrt_table
          0 (q 1) (Some 0) false ∅ (State [sym_edm] [])).2 !! 0
    = Some sym_edm.
Proof.
  apply (X11_sdr_keeps_edm_missing solve_infeasible sqrt_table 0 sym_edm 2 2
           (q 1) (Some 0) false ∅ (State [sym_edm] [])
           (semidefinite_relaxation solve_infeasible sqrt_table
              0 (q 1) (Some 0) false ∅ (State [sym_edm] [])).1 _).
  - split; [done | by repeat constructor].
  - done.
  - apply surjective_pairing.
Defined.

(** ** More on optspace *)

(** X12: [optspace] returns exactly when the factorization routine
    answers with factors that can be multiplied and whose product has at
    least N rows and N columns, N being the number of rows of the input. *)
Theorem X12_optspace_returns_iff
    opt_space (edm_missing : loc) (em : matrix) rank niter tol print_out
    (s : state) :
  heap s !! edm_missing = Some em →
  (∃ l s', optspace opt_space edm_missing rank niter tol print_out s
             = (inr l, s')) ↔
  ∃ X S_ Y,
    opt_space em rank niter tol print_out = inr (X, S_, Y) ∧
    ncols S_ = nrows (transpose Y) ∧
    ncols X = nrows (matmul S_ (transpose Y)) ∧
    nrows em ≤ nrows (matmul X (matmul S_ (transpose Y))) ∧
    nrows em ≤ ncols (matmul X (matmul S_ (transpose Y))).
Proof.
  intros Hl. unfold optspace, call_opt_space, set_diag_zero, np_dot. mrun.
  rewrite Hl. mrun.
  destruct (opt_space em _ _ _ _) as [e|[[X S_] Y]]; mrun.
  { split; [by intros (? & ? & ?) | by intros (? & ? & ? & ? & _)]. }
  split.
  - intros (l & s' & Hrun). exists X, S_, Y. split; [done|]. revert Hrun.
    destruct (decide (ncols S_ = _)); mrun; [|done].
    destruct (decide (ncols X = _)); mrun; [|done].
    rewrite lookup_alloc. mrun.
    by destruct (decide (_ ∧ _)) as [[? ?]|]; mrun.
  - intros (X' & S' & Y' & [= <- <- <-] & HS & HX & HN1 & HN2).
    rewrite !decide_True by done. mrun. rewrite lookup_alloc. mrun.
    rewrite decide_True by done. by eexists _, _.
Qed.

Lemma X12_optspace_returns_iff_witness :
  (∃ l s', optspace (factors eye2 sym_edm eye2) 0 2 500 (q 0) false
             (State [sym_edm] []) = (inr l, s')) ↔
  ∃ X S_ Y,
    factors eye2 sym_edm eye2 sym_edm 2 500 (q 0) false = inr (X, S_, Y) ∧
    ncols S_ = nrows (transpose Y) ∧
    ncols X = nrows (matmul S_ (transpose Y)) ∧
    nrows sym_edm ≤ nrows (matmul X (matmul S_ (transpose Y))) ∧
    nrows sym_edm ≤ ncols (matmul X (matmul S_ (transpose Y))).
Proof.
  by apply (X12_optspace_returns_iff (factors eye2 sym_edm eye2) 0 sym_edm
              2 500 (q 0) false (State [sym_edm] [])).
Defined.

(** X13: an exception of [optspace] is the factorization routine's own,
    raised before any array is made; or a [ValueError] for factors that
    cannot be multiplied; or an [IndexError] for a product with fewer than
    N rows or columns. *)
Theorem X13_optspace_exceptions
    opt_space (edm_missing : loc) (em : matrix) rank niter tol print_out
    (s : state) e (s' : state) :
  heap s !! edm_missing = Some em →
  optspace opt_space edm_missing rank niter tol print_out s = (inl e, s') →
  (opt_space em rank niter tol print_out = inl e ∧ heap s' = heap s) ∨
  ∃ X S_ Y,
    opt_space em rank niter tol print_out = inr (X, S_, Y) ∧
    ((e = ValueError ∧ heap s' = heap s ∧
      (ncols S_ ≠ nrows (transpose Y) ∨
       ncols X ≠ nrows (matmul S_ (transpose Y)))) ∨
     (e = IndexError ∧
      (nrows (matmul X (matmul S_ (transpose Y))) < nrows em ∨
       ncols (matmul X (matmul S_ (transpose Y))) < nrows em))).
Proof.
  intros Hl. unfold optspace, call_opt_space, set_diag_zero, np_dot. mrun.
  rewrite Hl. mrun.
  destruct (opt_space em _ _ _ _) as [e'|[[X S_] Y]]; mrun.
  { intros [= <- <-]. by left. }
  intros Hrun. right. exists X, S_, Y. split; [done|]. revert Hrun.
  destruct (decide (ncols S_ = _)); mrun;
    [|intros [= <- <-]; left; by eauto].
  destruct (decide (ncols X = _)); mrun;
    [|intros [= <- <-]; left; by eauto].
  rewrite lookup_alloc. mrun.
  destruct (decide (_ ∧ _)) as [|Hsmall]; mrun; [done|].
  intros [= <- <-]. right. split; [done|].
  apply not_and_l in Hsmall. destruct Hsmall; [left | right]; lia.
Qed.

Lemma X13_optspace_exceptions_witness :
  let run := optspace (factors one1 one1 one1) 0 1 500 (q 0) false
               (State [sym_edm] []) in
  (factors one1 one1 one1 sym_edm 1 500 (q 0) false = inl IndexError ∧
   heap run.2 = [sym_edm]) ∨
  ∃ X S_ Y,
    factors one1 one1 one1 sym_edm 1 500 (q 0) false = inr (X, S_, Y) ∧
    ((IndexError = ValueError ∧ heap run.2 = [sym_edm] ∧
      (ncols S_ ≠ nrows (transpose Y) ∨
       ncols X ≠ nrows (matmul S_ (transpose Y)))) ∨
     (IndexError = IndexError ∧
      (nrows (matmul X (matmul S_ (transpose Y))) < nrows sym_edm ∨
       ncols (matmul X (matmul S_ (transpose Y))) < nrows sym_edm))).
Proof.
  intros run.
  apply (X13_optspace_exceptions (factors one1 one1 one1) 0 sym_edm
           1 500 (q 0) false (State [sym_edm] []) IndexError run.2).
  - done.
  - apply injective_projections; [by vm_compute | done].
Defined.

(** X14: however a call of [optspace] ends, every array that existed
    before the call holds the value it had. *)
Theorem X14_optspace_frame
    opt_space (edm_missing : loc) rank niter tol print_out
    (s : state) res (s' : state) (l : loc) (m : matrix) :
  optspace opt_space edm_missing rank niter tol print_out s = (res, s') →
  heap s !! l = Some m →
  heap s' !! l = Some m.
Proof.
  intros Hrun Hl. destruct (optspace_frame _ _ _ _ _ _ _ _ _ Hrun) as (new & ->).
  by apply lookup_app_l_Some.
Qed.

Lemma X14_optspace_frame_witness :
  heap (optspace (factors one1 one1 one1) 0 1 500 (q 0) false
          (State [sym_edm] [])).2 !! 0 = Some sym_edm.
Proof.
  apply (X14_optspace_frame (factors one1 one1 one1) 0 1 500 (q 0) false
           (State [sym_edm] [])
           (optspace (factors one1 one1 one1) 0 1 500 (q 0) false
              (State [sym_edm] [])).1 _ 0 sym_edm).
  - apply surjective_pairing.
  - done.
Defined.

(** ** Exceptions of a call of rank alternation *)

(** X15: an exception of [rank_alternation] is either one the low-rank
    routine raised, passed on unchanged, or numpy's [IndexError] or
    [ValueError] for arrays whose shapes do not fit; the routine raises
    nothing of its own. *)
Theorem X15_rank_alternation_exceptions
    low_rank_approximation np_linalg_norm
    (edm_missing : loc) (rank niter : nat) print_out edm_true
    (s : state) e (s' : state) :
  rank_alternation low_rank_approximation np_linalg_norm
    edm_missing rank niter print_out edm_true s = (inl e, s') →
  e = IndexError ∨ e = ValueError ∨
  ∃ a, low_rank_approximation a rank = inl e.
Proof.
  unfold rank_alternation. mrun. rewrite lookup_alloc, insert_alloc. mrun.
  apply rank_loop_exn.
Qed.

Lemma X15_rank_alternation_exceptions_witness :
  ExternalError "LinAlgError" = IndexError ∨
  ExternalError "LinAlgError" = ValueError ∨
  ∃ a, lra_strict a 1 = inl (ExternalError "LinAlgError").
Proof.
  apply (X15_rank_alternation_exceptions lra_strict norm_unused 0 1 2 false
           None (State [zeros2] []) (ExternalError "LinAlgError")
           (rank_alternation lra_strict norm_unused 0 1 2 false None
              (State [zeros2] [])).2).
  apply injective_projections; [by vm_compute | done].
Defined.

(** ** More on the kernel transform *)

(** X16: on a square array [kappa] keeps symmetry, entry by entry, and
    gives a zero diagonal wherever the diagonal entry of its argument is a
    number whose double is within the range of float64 (beyond it, see
    [f64_kappa_overflow]).  The first part is on [kappa] in the arithmetic
    of the model, the second on line 74 in float64. *)
Theorem X16_kappa_symmetric_hollow :
  (∀ (n : nat) (gram : matrix),
     is_shape n n gram →
     (∀ i j, i < n → j < n → get gram i j = get gram j i) →
     (∀ i j, i < n → j < n → get (kappa gram) i j = get (kappa gram) j i) ∧
     (∀ i x, i < n → get gram i i = Num x →
        in_range (sadd (Num x) (Num x)) →
        get (kappa gram) i i = zero)) ∧
  (∀ (N : nat) (g : list (list PrimFloat.float)),
     (∀ i j, i < N → j < N → f64.get g i j = f64.get g j i) →
     (∀ i j, i < N → j < N →
        f64.get (f64.kappa N g) i j = f64.get (f64.kappa N g) j i) ∧
     (∀ i, i < N →
        f64.is_number (f64.get g i i) = true →
        f64.in_range (f64.get g i i) = true →
        f64.get (f64.kappa N g) i i = PrimFloat.zero)).
Proof.
  split.
  - intros n gram Hg Hsym. split.
    + intros i j Hi Hj. rewrite !(get_kappa n) by done.
      rewrite !smul_one_r, !smul_one_l, (Hsym i j) by done.
      by rewrite sadd_comm.
    + intros i x Hi Hx _. rewrite (get_kappa n), Hx by done. simpl.
      unfold zero. f_equal. apply gram_diag_cancel.
  - intros N g Hsym. split.
    + intros i j Hi Hj. apply f64_kappa_symmetric; [done | done |].
      by apply Hsym.
    + intros. by apply f64_kappa_diag.
Qed.

Lemma X16_kappa_symmetric_hollow_witness :
  ((∀ i j, i < 3 → j < 3 → get (kappa gram3) i j = get (kappa gram3) j i) ∧
   (∀ i x, i < 3 → get gram3 i i = Num x →
      in_range (sadd (Num x) (Num x)) →
      get (kappa gram3) i i = zero)) ∧
  ((∀ i j, i < 2 → j < 2 →
      f64.get (f64.kappa 2 f64.gram2) i j
      = f64.get (f64.kappa 2 f64.gram2) j i) ∧
   (∀ i, i < 2 →
      f64.is_number (f64.get f64.gram2 i i) = true →
      f64.in_range (f64.get f64.gram2 i i) = true →
      f64.get (f64.kappa 2 f64.gram2) i i = PrimFloat.zero)).
Proof.
  destruct X16_kappa_symmetric_hollow as (Hmodel & Hfloat). split.
  - apply (Hmodel 3 gram3).
    + split; [done | by repeat constructor].
    + intros [|[|[|i]]] [|[|[|j]]] Hi Hj; try lia; compute_done.
  - apply (Hfloat 2 f64.gram2).
    intros [|[|i]] [|[|j]] Hi Hj; try lia; by vm_compute.
Defined.

(** ** The returned array and the structure step *)

(** X17: the array [rank_alternation] returns after at least one
    iteration on a square input is a fixed point of the structure step:
    running lines 59 to 61 on it once more gives an array of the same
    value. *)
Theorem X17_rank_alternation_structure_fixpoint
    low_rank_approximation np_linalg_norm
    (edm_missing : loc) (em : matrix) (n rank niter : nat) print_out edm_true
    (s : state) (l : loc) errs (s' : state) :
  is_shape n n em →
  heap s !! edm_missing = Some em →
  1 ≤ niter →
  rank_alternation low_rank_approximation np_linalg_norm
    edm_missing rank niter print_out edm_true s = (inr (l, errs), s') →
  ∃ c l' s'',
    heap s' !! l = Some c ∧
    impose_structure n l s' = (inr l', s'') ∧
    heap s'' !! l' = Some c.
Proof.
  intros Hem Hl Hn Hrun.
  destruct (rank_alternation_inv _ _ _ _ _ _ _ Hem _ _ _ _ _ _ Hl Hn Hrun)
    as (r & Hss & _ & Hc).
  pose proof (impose_known_shape _ _ _ Hem Hss) as Hk.
  set (c := averaged n (impose_known r em)) in *.
  assert (is_shape n n c) as Hsc by (by apply averaged_shape).
  assert (averaged n c = c) as Hfix.
  { apply averaged_valid; [done | | |].
    - intros i Hi. by apply averaged_diag.
    - intros i j Hi Hj. by apply averaged_nonneg.
    - by apply averaged_transpose. }
  eexists c, _, _. split; [done|]. split; [by apply impose_structure_run|].
  cbn [heap]. rewrite Hfix.
  rewrite lookup_app_r, length_insert, Nat.sub_diag
    by (by rewrite length_insert).
  done.
Qed.

Lemma X17_rank_alternation_structure_fixpoint_witness :
  ∃ c l' s'',
    heap (rank_alternation lra_exact norm_unused 0 3 1 false None
            (State [asym_edm] [])).2 !! 3 = Some c ∧
    impose_structure 3 3
      (rank_alternation lra_exact norm_unused 0 3 1 false None
         (State [asym_edm] [])).2 = (inr l', s'') ∧
    heap s'' !! l' = Some c.
Proof.
  apply (X17_rank_alternation_structure_fixpoint lra_exact norm_unused
           0 asym_edm 3 3 1 false None (State [asym_edm] []) 3 [] _).
  - split; [done | by repeat constructor].
  - done.
  - lia.
  - apply run_pair. by vm_compute.
Defined.

(** ** No iteration *)

(** X18: with [niter = 0], [rank_alternation] returns a new array, not
    the input: the copy of the input in which every zero entry holds the
    mean of the positive entries and every other entry is as in the
    input.  The low-rank routine is not called and no error is recorded. *)
Theorem X18_rank_alternation_no_iteration
    low_rank_approximation np_linalg_norm
    (edm_missing : loc) (em : matrix) (n k rank : nat) print_out edm_true
    (s : state) :
  is_shape n k em →
  heap s !! edm_missing = Some em →
  ∃ c,
    rank_alternation low_rank_approximation np_linalg_norm
      edm_missing rank 0 print_out edm_true s
      = (inr (length (heap s), []), State (heap s ++ [c]) (trace s)) ∧
    length (heap s) ≠ edm_missing ∧
    is_shape n k c ∧
    ∀ i j, i < n → j < k →
      get c i j = if seq0 (get em i j) then np_mean (select_gt0 em)
                  else get em i j.
Proof.
  intros Hem Hl. pose proof (lookup_lt_Some _ _ _ Hl) as Hlt.
  eexists. split.
  { unfold rank_alternation. mrun. rewrite Hl. mrun.
    by rewrite lookup_alloc, insert_alloc. }
  split; [lia|]. split; [by apply fill_where_shape|].
  intros i j Hi Hj. by apply (get_fill_where _ _ n k).
Qed.

Lemma X18_rank_alternation_no_iteration_witness :
  ∃ c,
    rank_alternation lra_strict norm_unused 0 1 0 false None
      (State [asym_edm] [])
      = (inr (1, []), State ([asym_edm] ++ [c]) []) ∧
    1 ≠ 0 ∧
    is_shape 3 3 c ∧
    ∀ i j, i < 3 → j < 3 →
      get c i j = if seq0 (get asym_edm i j) then np_mean (select_gt0 asym_edm)
                  else get asym_edm i j.
Proof.
  apply (X18_rank_alternation_no_iteration lra_strict norm_unused
           0 asym_edm 3 3 1 false None (State [asym_edm] [])).
  - split; [done | by repeat constructor].
  - done.
Defined.

(** ** The fill value *)

Lemma ssum_positive (l : list scalar) :
  Forall (λ x, sgt0 x = true) l →
  ∃ t : Qc, ssum l = Num t ∧ (0 ≤ t)%Qc ∧ (l ≠ [] → (0 < t)%Qc).
Proof.
  induction 1 as [|x l Hx _ (t & Ht & Hle & Hlt)].
  - exists 0%Qc. by repeat split.
  - apply sgt0_Num in Hx as (y & -> & Hy).
    exists (y + t)%Qc. cbn [ssum foldr]. fold (ssum l). rewrite Ht.
    split; [done|]. split.
    + apply Qcplus_nonneg_nonneg; [by apply Qclt_le_weak | done].
    + intros _. by apply Qcplus_pos_nonneg.
Qed.

Lemma select_gt0_positive em : Forall (λ x, sgt0 x = true) (select_gt0 em).
Proof.
  unfold select_gt0. apply Forall_forall. by intros x [? _]%list_elem_of_filter.
Qed.

Lemma select_gt0_nonempty n k em i j :
  is_shape n k em → i < n → j < k →
  sgt0 (get em i j) = true → select_gt0 em ≠ [].
Proof.
  intros Hem Hi Hj Hpos.
  destruct (get_in_range _ _ _ _ _ Hem Hi Hj) as (r & Hr & Hx).
  assert (get em i j ∈ select_gt0 em) as Hin.
  { unfold select_gt0. apply list_elem_of_filter. split; [done|].
    apply list_elem_of_In, in_concat. exists r.
    split; apply list_elem_of_In; by eapply list_elem_of_lookup_2. }
  intros Hnil. rewrite Hnil in Hin. by apply elem_of_nil in Hin.
Qed.

(** X21: as soon as one entry of the input is positive, the value line 50
    fills the unobserved entries with, the mean of the positive entries,
    is a positive number. *)
Theorem X21_fill_value_positive (n k : nat) (em : matrix) (i j : nat) :
  is_shape n k em →
  i < n → j < k →
  sgt0 (get em i j) = true →
  ∃ x : Qc, np_mean (select_gt0 em) = Num x ∧ (0 < x)%Qc.
Proof.
  intros Hem Hi Hj Hpos.
  pose proof (select_gt0_nonempty _ _ _ _ _ Hem Hi Hj Hpos) as Hne.
  destruct (ssum_positive _ (select_gt0_positive em)) as (t & Ht & _ & Hlt).
  specialize (Hlt Hne).
  assert (0 < Qc_of_nat (length (select_gt0 em)))%Qc as Hlen.
  { unfold Qc_of_nat. rewrite <- Z2Qc_inj_0.
    apply (proj1 (Z2Qc_inj_lt 0 _)).
    destruct (select_gt0 em); [done | cbn [length]; lia]. }
  unfold np_mean. rewrite Ht. cbn [sdiv].
  rewrite decide_False by (intros Hz; rewrite Hz in Hlen;
                          by apply (Qclt_not_eq _ _ Hlen)).
  eexists. split; [done|].
  unfold Qcdiv. apply Qcmult_pos_pos; [done | by apply Qcinv_pos].
Qed.

Lemma X21_fill_value_positive_witness :
  ∃ x : Qc, np_mean (select_gt0 asym_edm) = Num x ∧ (0 < x)%Qc.
Proof.
  apply (X21_fill_value_positive 3 3 asym_edm 0 1).
  - split; [done | by repeat constructor].
  - lia.
  - lia.
  - by vm_compute.
Defined.

(** ** The arrays a call of the semidefinite relaxation leaves *)

Section sdr_heap.

Variable cvx_solve : objective → gmap string string → exn + solve_result.
Variable np_sqrt : scalar → scalar.

(** However a call ends, the heap is the one before the call, with the
    weights masked in place if they were supplied and fit, and with new
    arrays at the end. *)
Lemma sdr_heap edm_missing lamda W print_out kwargs s res s' :
  semidefinite_relaxation cvx_solve np_sqrt
    edm_missing lamda W print_out kwargs s = (res, s') →
  ∃ new,
    heap s' =
      match W with
      | Some w =>
          if same_shape (default [] (heap s !! w))
                        (default [] (heap s !! edm_missing))
          then <[w := mask_unobserved (default [] (heap s !! w))
                        (default [] (heap s !! edm_missing))]> (heap s)
          else heap s
      | None => heap s
      end ++ new.
Proof.
  unfold semidefinite_relaxation, sdr_weights, call_solve, sdr_result.
  cbv zeta. mrun.
  destruct W as [w|]; mrun.
  - destruct (same_shape _ _); mrun;
      [|intros [= <- <-]; exists []; by rewrite app_nil_r].
    fold (mask_unobserved (default [] (heap s !! w))
            (default [] (heap s !! edm_missing))).
    destruct (decide (_ = 0)); mrun;
      [intros [= <- <-]; exists []; by rewrite app_nil_r|].
    destruct (sdr_objective _ _ _ _ _ _); mrun;
      [intros [= <- <-]; exists []; by rewrite app_nil_r|].
    destruct (cvx_solve _ _) as [e|r]; mrun;
      [intros [= <- <-]; exists []; by rewrite app_nil_r|].
    destruct (H_value r), print_out; cbn [andb]; mrun;
      try (destruct (has_nan _); mrun;
           [|destruct (decide (_ - 1 = 1)); mrun]);
      intros [= <- <-]; cbn [heap];
      first [by eexists | exists []; by rewrite app_nil_r].
  - destruct (decide (_ = 0)); mrun; [intros [= <- <-]; by eexists|].
    destruct (sdr_objective _ _ _ _ _ _); mrun;
      [intros [= <- <-]; by eexists|].
    destruct (cvx_solve _ _) as [e|r]; mrun;
      [intros [= <- <-]; by eexists|].
    destruct (H_value r), print_out; cbn [andb]; mrun;
      try (destruct (has_nan _); mrun;
           [|destruct (decide (_ - 1 = 1)); mrun]);
      intros [= <- <-]; cbn [heap];
      rewrite <- ?app_assoc; by eexists.
Qed.

End sdr_heap.

(** X22: however a call of [semidefinite_relaxation] ends, every array
    that existed before the call, other than the weights passed as [W],
    holds the value it had; without weights no array of the caller
    changes. *)
Theorem X22_sdr_frame
    cvx_solve np_sqrt (edm_missing : loc) lamda W print_out
    (kwargs : gmap string string) (s : state) res (s' : state)
    (l : loc) (m : matrix) :
  semidefinite_relaxation cvx_solve np_sqrt
    edm_missing lamda W print_out kwargs s = (res, s') →
  W ≠ Some l →
  heap s !! l = Some m →
  heap s' !! l = Some m.
Proof.
  intros Hrun HW Hl. destruct (sdr_heap _ _ _ _ _ _ _ _ _ _ Hrun) as (new & ->).
  apply lookup_app_l_Some.
  destruct W as [w|]; [|done].
  destruct (same_shape _ _); [|done].
  rewrite list_lookup_insert_ne; [done | congruence].
Qed.

Lemma X22_sdr_frame_witness :
  heap (semidefinite_relaxation (solve_optimal eye3) sqrt_table
          0 (q 1) (Some 1) true ∅ (State [sym_edm; weights2; line_edm] [])).2
    !! 2 = Some line_edm.
Proof.
  apply (X22_sdr_frame (solve_optimal eye3) sqrt_table 0 (q 1) (Some 1) true ∅
           (State [sym_edm; weights2; line_edm] [])
           (semidefinite_relaxation (solve_optimal eye3) sqrt_table
              0 (q 1) (Some 1) true ∅
              (State [sym_edm; weights2; line_edm] [])).1 _ 2 line_edm).
  - apply surjective_pairing.
  - done.
  - done.
Defined.

(** X23: supplied weights of the input's shape come out of a call, however
    it ends, with a zero at every position where the input is zero and
    with their own value at every other position. *)
Theorem X23_sdr_weights_masked
    cvx_solve np_sqrt (edm_missing w : loc) (em wv : matrix) (n k : nat)
    lamda print_out (kwargs : gmap string string)
    (s : state) res (s' : state) :
  is_shape n k em →
  is_shape n k wv →
  heap s !! edm_missing = Some em →
  heap s !! w = Some wv →
  semidefinite_relaxation cvx_solve np_sqrt
    edm_missing lamda (Some w) print_out kwargs s = (res, s') →
  ∃ wv', heap s' !! w = Some wv' ∧ is_shape n k wv' ∧
    ∀ i j, i < n → j < k →
      get wv' i j = if seq0 (get em i j) then zero else get wv i j.
Proof.
  intros Hem Hwv Hl Hw Hrun.
  pose proof (lookup_lt_Some _ _ _ Hw) as Hlt.
  destruct (sdr_heap _ _ _ _ _ _ _ _ _ _ Hrun) as (new & ->).
  rewrite Hl, Hw. cbn [default from_option id].
  rewrite (same_shape_of_shape n k) by done.
  exists (mask_unobserved wv em). split; [|split].
  - rewrite lookup_app_l by (by rewrite length_insert).
    by apply list_lookup_insert_eq.
  - by apply mk_dims_shape.
  - intros i j Hi Hj. unfold mask_unobserved. by rewrite (get_mk_dims n k).
Qed.

Lemma X23_sdr_weights_masked_witness :
  ∃ wv',
    heap (semidefinite_relaxation solve_infeasible sqrt_table
            0 (q 1) (Some 1) false ∅ (State [sym_edm; weights2] [])).2 !! 1
      = Some wv' ∧ is_shape 2 2 wv' ∧
    ∀ i j, i < 2 → j < 2 →
      get wv' i j = if seq0 (get sym_edm i j) then zero else get weights2 i j.
Proof.
  apply (X23_sdr_weights_masked solve_infeasible sqrt_table 0 1
           sym_edm weights2 2 2 (q 1) false ∅
           (State [sym_edm; weights2] [])
           (semidefinite_relaxation solve_infeasible sqrt_table
              0 (q 1) (Some 1) false ∅ (State [sym_edm; weights2] [])).1 _).
  - split; [done | by repeat constructor].
  - split; [done | by repeat constructor].
  - done.
  - done.
  - apply surjective_pairing.
Defined.

(** ** The array the semidefinite relaxation returns *)

(** X10: when the solver produced a value for [H], of the size of the
    variable, [semidefinite_relaxation] returns an array that did not
    exist before the call.  It is [n] by [n], and its entry (i, j) is
    [Gbest[i,i] + Gbest[j,j] - 2 * Gbest[i,j]], [Gbest] being
    [V * H.value * V.T]. *)
Theorem X10_sdr_result_entries
    cvx_solve np_sqrt (edm_missing : loc) (em : matrix) (n k : nat)
    lamda W print_out kwargs (s : state) (l : loc) (s' : state)
    evs obj opts r Hv :
  is_shape n k em →
  2 ≤ n →
  heap s !! edm_missing = Some em →
  semidefinite_relaxation cvx_solve np_sqrt
    edm_missing lamda W print_out kwargs s = (inr l, s') →
  trace s' = trace s ++ evs →
  SolveCall obj opts (inr r) ∈ evs →
  H_value r = Some Hv →
  is_shape (n - 1) (n - 1) Hv →
  heap s !! l = None ∧
  ∃ c, heap s' !! l = Some c ∧ is_shape n n c ∧
       ∀ i j, i < n → j < n →
         get c i j =
           let G := gram_best (centering_basis np_sqrt n) Hv in
           ssub (sadd (get G i i) (get G j j)) (smul (Num two) (get G i j)).
Proof.
  intros Hem Hn Hl Hrun Htr Hev HH _.
  destruct (sdr_answer cvx_solve np_sqrt _ _ _ _ _ _ _ _ _ _ _ _ _ _ _
              Hem Hl Hrun Htr Hev) as (_ & Hres).
  rewrite HH in Hres.
  destruct Hres as [(l' & [= <-] & Hlen & _ & Hc)|(_ & [[=]|[=]])].
  pose proof (gram_best_shape np_sqrt n Hv Hn) as HG.
  split; [by apply lookup_ge_None_2|].
  eexists. split; [exact Hc|]. split; [by apply kappa_shape|].
  intros i j Hi Hj. cbv zeta. rewrite (get_kappa n) by done.
  by rewrite smul_one_r, smul_one_l.
Qed.

Lemma X10_sdr_result_entries_witness :
  let run := semidefinite_relaxation (solve_optimal gram3) sqrt_table
               0 (q 1) None false ∅ (State [line_edm] []) in
  heap (State [line_edm] []) !! 2 = None ∧
  ∃ c, heap run.2 !! 2 = Some c ∧ is_shape 4 4 c ∧
       ∀ i j, i < 4 → j < 4 →
         get c i j =
           let G := gram_best (centering_basis sqrt_table 4) gram3 in
           ssub (sadd (get G i i) (get G j j)) (smul (Num two) (get G i j)).
Proof.
  intros run.
  assert (∃ obj opts,
            trace run.2
            = [] ++ [SolveCall obj opts
                       (inr (SolveResult zero "optimal" (Some gram3)))])
    as (obj & opts & Htr).
  { vm_compute. by eexists _, _. }
  apply (X10_sdr_result_entries (solve_optimal gram3) sqrt_table
           0 line_edm 4 4 (q 1) None false ∅ (State [line_edm] []) 2 run.2
           [SolveCall obj opts (inr (SolveResult zero "optimal" (Some gram3)))]
           obj opts (SolveResult zero "optimal" (Some gram3)) gram3).
  - split; [done | by repeat constructor].
  - lia.
  - done.
  - apply run_pair. by vm_compute.
  - done.
  - apply list_elem_of_here.
  - done.
  - split; [done | by repeat constructor].
Defined.

(** X24: without [print_out], a call on two points or more in which the
    solver has answered returns: the input array itself when the answer
    has no value for [H], an array that did not exist before the call when
    it has one. *)
Theorem X24_sdr_returns_after_solve
    cvx_solve np_sqrt (edm_missing : loc) (em : matrix) (n k : nat)
    lamda W kwargs (s : state) res (s' : state) evs obj opts r :
  is_shape n k em →
  2 ≤ n →
  heap s !! edm_missing = Some em →
  semidefinite_relaxation cvx_solve np_sqrt
    edm_missing lamda W false kwargs s = (res, s') →
  trace s' = trace s ++ evs →
  SolveCall obj opts (inr r) ∈ evs →
  (∀ Hv, H_value r = Some Hv → is_shape (n - 1) (n - 1) Hv) →
  ∃ l, res = inr l ∧
       match H_value r with
       | None => l = edm_missing
       | Some _ => heap s !! l = None
       end.
Proof.
  intros Hem Hn Hl Hrun Htr Hev _.
  destruct (sdr_answer cvx_solve np_sqrt _ _ _ _ _ _ _ _ _ _ _ _ _ _ _
              Hem Hl Hrun Htr Hev) as (_ & Hres).
  destruct (H_value r) as [Hv|].
  - destruct Hres as [(l & -> & Hlen & _)|([=] & _)].
    exists l. split; [done|]. by apply lookup_ge_None_2.
  - by exists edm_missing.
Qed.

Lemma X24_sdr_returns_after_solve_witness :
  let run := semidefinite_relaxation (solve_optimal gram3) sqrt_table
               0 (q 1) None false ∅ (State [line_edm] []) in
  ∃ l, run.1 = inr l ∧ heap (State [line_edm] []) !! l = None.
Proof.
  intros run.
  assert (∃ obj opts,
            trace run.2
            = [] ++ [SolveCall obj opts
                       (inr (SolveResult zero "optimal" (Some gram3)))])
    as (obj & opts & Htr).
  { vm_compute. by eexists _, _. }
  apply (X24_sdr_returns_after_solve (solve_optimal gram3) sqrt_table
           0 line_edm 4 4 (q 1) None ∅ (State [line_edm] []) run.1 run.2
           [SolveCall obj opts (inr (SolveResult zero "optimal" (Some gram3)))]
           obj opts (SolveResult zero "optimal" (Some gram3))).
  - split; [done | by repeat constructor].
  - lia.
  - done.
  - apply surjective_pairing.
  - done.
  - apply list_elem_of_here.
  - intros Hv [= <-]. split; [done | by repeat constructor].
Defined.

(** X25: with [print_out], a call on two points in which the solver has
    produced a value for [H] does not return.  The variable is 1 by 1,
    its value is a scalar, and the diagnostic of line 121 hands it to
    [np.trace], which raises a ValueError; unless [np.linalg.eigvals] has
    refused [Gbest] at line 113.  The input array holds its value. *)
Theorem X25_sdr_print_out_two_points
    cvx_solve np_sqrt (edm_missing : loc) (em : matrix) (k : nat)
    lamda W kwargs (s : state) res (s' : state) evs obj opts r Hv :
  is_shape 2 k em →
  heap s !! edm_missing = Some em →
  semidefinite_relaxation cvx_solve np_sqrt
    edm_missing lamda W true kwargs s = (res, s') →
  trace s' = trace s ++ evs →
  SolveCall obj opts (inr r) ∈ evs →
  H_value r = Some Hv →
  (res = inl ValueError ∨ res = inl (ExternalError "LinAlgError")) ∧
  heap s' !! edm_missing = Some em.
Proof.
  intros Hem Hl Hrun Htr Hev HH.
  destruct (sdr_answer cvx_solve np_sqrt _ _ _ _ _ _ _ _ _ _ _ _ _ _ _
              Hem Hl Hrun Htr Hev) as (Hl' & Hres).
  split; [|done]. rewrite HH in Hres.
  destruct Hres as [(l & _ & _ & Hne & _)|(_ & [->| ->])]; [|by right|by left].
  by destruct (Hne eq_refl).
Qed.

Lemma X25_sdr_print_out_two_points_witness :
  let run := semidefinite_relaxation (solve_optimal one1) sqrt_table2
               0 (q 1) None true ∅ (State [sym_edm] []) in
  (run.1 = inl ValueError ∨ run.1 = inl (ExternalError "LinAlgError")) ∧
  heap run.2 !! 0 = Some sym_edm.
Proof.
  intros run.
  assert (∃ obj opts prints,
            trace run.2
            = [] ++ SolveCall obj opts
                      (inr (SolveResult zero "optimal" (Some one1)))
                    :: prints)
    as (obj & opts & prints & Htr).
  { vm_compute. by eexists _, _, _. }
  apply (X25_sdr_print_out_two_points (solve_optimal one1) sqrt_table2
           0 sym_edm 2 (q 1) None ∅ (State [sym_edm] []) run.1 run.2
           (SolveCall obj opts (inr (SolveResult zero "optimal" (Some one1)))
              :: prints)
           obj opts (SolveResult zero "optimal" (Some one1)) one1).
  - split; [done | by repeat constructor].
  - done.
  - apply surjective_pairing.
  - done.
  - apply list_elem_of_here.
  - done.
Defined.
